(** * BitNet b1.58 MNIST export: shift calibration, integer inference and
      2-bit weight packing of [train_mnist.py]

    The development embeds the quantizer and the integer part of
    [src/python/train_mnist.py]: [TernaryQuantize.forward],
    [find_shift_for_max], [calibrate_shift], [verify_int8_inference], the
    packing loop, line splitting and byte sizes of [export_weights_header],
    and the collection loop and image rows of [export_test_data_header].

    Conventions.
    - A numpy integer array is a [list Z]; a 2-D array is the list of its
      rows.  Fixed-width element types are written out: [astype_int32] and
      [astype_int8] wrap around as numpy does.
    - Python exceptions are values of [exn]; a computation that may raise has
      type [res A].
    - A float32 tensor element is a [spec_float] of the Standard Library at
      precision 24 and maximal exponent 128; a weight matrix is the list of
      its rows.
    - Training and the float model's forward pass are outside the embedding:
      the integer functions take the int8 arrays the script derives from
      them, that is [w1], [w2], [w3] of lines 115-117 (the quantized weights
      cast to int8) and, per batch of the loader, the array [acts] of
      line 125. *)

From Stdlib Require Import ZArith Lia QArith Qabs Qround SpecFloat.
From Equations Require Import Equations.
From stdpp Require Import base option list numbers.

Local Open Scope Z_scope.

(** ** Exceptions *)

Inductive exn : Set :=
| ValueError
| RuntimeError
| IndexError
| ZeroDivisionError.

Inductive res (A : Type) : Type :=
| Ok (a : A)
| Raise (e : exn).

Arguments Ok {A} a.
Arguments Raise {A} e.

#[global] Instance res_ret : MRet res := fun A a => Ok a.

#[global] Instance res_bind : MBind res := fun A B f m =>
  match m with
  | Ok a => f a
  | Raise e => Raise e
  end.

(** [for x in l: s = body(x, s)], stopping at the first exception. *)
Fixpoint for_each {A S : Type} (l : list A) (body : A -> S -> res S) (s : S)
  : res S :=
  match l with
  | [] => Ok s
  | x :: l' => s' ← body x s; for_each l' body s'
  end.

(** [for i in range(n)]. *)
Definition for_range {S : Type} (n : nat) (body : nat -> S -> res S) (s : S)
  : res S :=
  for_each (seq 0 n) body s.

(** ** Fixed-width integers *)

(** Two's complement wrap-around to 32 and to 8 bits: the low bits of the
    value, read as a signed number ([4294967295 = 2^32 - 1], [255 = 2^8 - 1]). *)
Definition astype_int32 (x : Z) : Z :=
  Z.land (x + 2147483648) 4294967295 - 2147483648.

Definition astype_int8 (x : Z) : Z := Z.land (x + 128) 255 - 128.

Definition is_int8 (x : Z) : Prop := -128 <= x <= 127.
Definition is_int32 (x : Z) : Prop := -2147483648 <= x <= 2147483647.
Definition is_ternary (x : Z) : Prop := x = -1 \/ x = 0 \/ x = 1.

(** An int8 weight array whose rows are shorter than [2^17]: with int8
    activations its accumulators cannot wrap, [131071 * 128 * 128 < 2^31]. *)
Definition int8_weights (w : list (list Z)) : Prop :=
  Forall (fun row => Forall is_int8 row /\ Z.of_nat (length row) <= 131071) w.

(** [x.clip(lo, hi)] *)
Definition clip (lo hi x : Z) : Z := Z.max lo (Z.min hi x).

(** [np.abs] on an int32 value: the magnitude wraps at [-2^31]. *)
Definition np_abs (x : Z) : Z := astype_int32 (Z.abs x).

(** [np.max] of a 1-D array; a zero-size array has no maximum. *)
Definition np_max (l : list Z) : res Z :=
  match l with
  | [] => Raise ValueError
  | x :: l' => Ok (foldl Z.max x l')
  end.

(** ** Shift search (lines 166-173) *)

(** The [while (max_val >> shift) > 127: shift += 1] loop, entered with the
    current value of [shift]. *)
Equations? find_shift_loop (max_val shift : Z) : Z
  by wf (Z.to_nat (Z.shiftr max_val shift)) lt :=
  find_shift_loop max_val shift with Z_gt_dec (Z.shiftr max_val shift) 127 => {
    | left _ := find_shift_loop max_val (shift + 1);
    | right _ := shift }.
Proof.
  rewrite <- (Z.shiftr_shiftr max_val shift 1) by lia.
  rewrite (Z.shiftr_div_pow2 _ 1) by lia.
  change (2 ^ 1) with 2.
  assert (Z.shiftr max_val shift / 2 < Z.shiftr max_val shift)
    by (apply Z.div_lt; lia).
  assert (0 <= Z.shiftr max_val shift / 2) by (apply Z.div_pos; lia).
  lia.
Qed.

Definition find_shift_for_max (max_val : Z) : Z :=
  if max_val =? 0 then 0 else find_shift_loop max_val 0.

(** The same loop as a transition system, to count its iterations: one test
    of the guard and, when it holds, one execution of the body. *)
Definition find_shift_step (max_val shift : Z) : option Z :=
  if Z.shiftr max_val shift >? 127 then Some (shift + 1) else None.

(** At most [fuel] tests of the guard; [None] when the loop is still running. *)
Fixpoint find_shift_run (fuel : nat) (max_val shift : Z) : option Z :=
  match fuel with
  | O => None
  | S fuel' =>
      match find_shift_step max_val shift with
      | Some shift' => find_shift_run fuel' max_val shift'
      | None => Some shift
      end
  end.

Definition find_shift_for_max_run (fuel : nat) (max_val : Z) : option Z :=
  if max_val =? 0 then Some 0 else find_shift_run fuel max_val 0.

(** ** Integer matrix-vector product *)

(** One entry of [w.astype(np.int32) @ a.astype(np.int32)]: products and sums
    are int32 and wrap around. *)
Definition dot32 (row a : list Z) : Z :=
  foldl (fun acc p => astype_int32 (acc + astype_int32 (p.1 * p.2))) 0
        (zip (astype_int32 <$> row) (astype_int32 <$> a)).

(** [w.astype(np.int32) @ a.astype(np.int32)] for a 2-D [w] and a 1-D [a];
    numpy raises ValueError unless the row width of [w] is the length of [a]. *)
Definition matmul32 (w : list (list Z)) (a : list Z) : res (list Z) :=
  if forallb (fun row => (length row =? length a)%nat) w
  then Ok ((fun row => dot32 row a) <$> w)
  else Raise ValueError.

(** The exact dot product over the integers, for comparison. *)
Definition dot (row a : list Z) : Z :=
  foldr (fun p s => p.1 * p.2 + s) 0 (zip row a).

(** ** Shift calibration (lines 107-163) *)

(** [np.maximum((acc >> s).clip(-128, 127), 0).astype(np.int8)].  The shift is
    numpy's for [0 <= s < 2^31], which covers the shifts [find_shift_for_max]
    returns; numpy gives 0 or -1 for a negative count and rejects a larger
    one. *)
Definition relu_rescale (acc : list Z) (s : Z) : list Z :=
  (fun x => astype_int8 (Z.max (clip (-128) 127 (Z.shiftr x s)) 0)) <$> acc.

(** [max(max_acc, np.max(np.abs(acc)))] *)
Definition track_max (max_acc : Z) (acc : list Z) : res Z :=
  m ← np_max (np_abs <$> acc);
  mret (Z.max max_acc m).

(** Width of a 2-D array with at least one row. *)
Definition width (arr : list (list Z)) : nat := length (default [] (head arr)).

(** A 2-D array with at least one row, as a loader yields it. *)
Definition is_array2 (arr : list (list Z)) : Prop :=
  arr <> [] /\ Forall (fun row => length row = width arr) arr.

(** [np.concatenate(arrs, axis=0)]: ValueError on an empty list of arrays and
    on arrays whose widths differ. *)
Definition np_concatenate (arrs : list (list (list Z))) : res (list (list Z)) :=
  match arrs with
  | [] => Raise ValueError
  | arr :: arrs' =>
      if forallb (fun arr' => (width arr' =? width arr)%nat) arrs'
      then Ok (concat arrs)
      else Raise ValueError
  end.

(** Lines 119-127.  A batch is given by its [acts]; on a batch without samples
    [data.view(data.size(0), -1)] raises RuntimeError (the size behind [-1] is
    ambiguous for a tensor of 0 elements). *)
Definition collect_int8_inputs (loader : list (list (list Z)))
  : res (list (list Z)) :=
  all_acts ← for_each loader
    (fun acts all_acts =>
       match acts with
       | [] => Raise RuntimeError
       | _ => Ok (all_acts ++ [acts])
       end) [];
  np_concatenate all_acts.

(** Accumulators of the three layers for one sample, as the passes compute
    them (lines 134, 141-143 and 150-154). *)
Definition acc_layer1 (w1 : list (list Z)) (a : list Z) : res (list Z) :=
  matmul32 w1 a.

Definition acc_layer2 (w1 : list (list Z)) (s1 : Z) (w2 : list (list Z))
  (a : list Z) : res (list Z) :=
  acc1 ← matmul32 w1 a;
  let out1 := relu_rescale acc1 s1 in
  matmul32 w2 out1.

Definition acc_layer3 (w1 : list (list Z)) (s1 : Z) (w2 : list (list Z))
  (s2 : Z) (w3 : list (list Z)) (a : list Z) : res (list Z) :=
  acc1 ← matmul32 w1 a;
  let out1 := relu_rescale acc1 s1 in
  acc2 ← matmul32 w2 out1;
  let out2 := relu_rescale acc2 s2 in
  matmul32 w3 out2.

(** One calibration pass: the running maximum over all samples. *)
Definition calibration_pass (layer_acc : list Z -> res (list Z))
  (all_inputs : list (list Z)) : res Z :=
  for_each all_inputs
    (fun a max_acc => acc ← layer_acc a; track_max max_acc acc) 0.

Definition calibrate_shift (w1 w2 w3 : list (list Z))
  (cal_loader : list (list (list Z))) : res (list Z) :=
  all_inputs ← collect_int8_inputs cal_loader;
  (* Pass 1 *)
  max_acc1 ← calibration_pass (acc_layer1 w1) all_inputs;
  let s1 := find_shift_for_max max_acc1 in
  (* Pass 2 *)
  max_acc2 ← calibration_pass (acc_layer2 w1 s1 w2) all_inputs;
  let s2 := find_shift_for_max max_acc2 in
  (* Pass 3 *)
  max_acc3 ← calibration_pass (acc_layer3 w1 s1 w2 s2 w3) all_inputs;
  let s3 := find_shift_for_max max_acc3 in
  mret [s1; s2; s3].

(** ** Integer inference (lines 363-400) *)

(** [l[i]] on a Python list or 1-D array, for [i >= 0]. *)
Definition index {A : Type} (l : list A) (i : nat) : res A :=
  match l !! i with
  | Some x => Ok x
  | None => Raise IndexError
  end.

(** [(acc >> s).clip(-128, 127).astype(np.int8)].  The shift is numpy's for
    [0 <= s < 2^31], which covers the shifts [calibrate_shift] returns; numpy
    gives 0 or -1 for a negative count and rejects a larger one. *)
Definition rescale (acc : list Z) (s : Z) : list Z :=
  (fun x => astype_int8 (clip (-128) 127 (Z.shiftr x s))) <$> acc.

(** [np.maximum(out, 0).astype(np.int8)] *)
Definition relu (out : list Z) : list Z :=
  (fun x => astype_int8 (Z.max x 0)) <$> out.

(** Scan of [np.argmax]: the first position of the largest value. *)
Fixpoint argmax_from (best_i : nat) (best : Z) (i : nat) (l : list Z) : nat :=
  match l with
  | [] => best_i
  | x :: l' =>
      if x >? best then argmax_from i x (S i) l'
      else argmax_from best_i best (S i) l'
  end.

Definition np_argmax (l : list Z) : res nat :=
  match l with
  | [] => Raise ValueError
  | x :: l' => Ok (argmax_from 0%nat x 1%nat l')
  end.

(** Lines 381-391: the accumulator [acc3] of the last layer. *)
Definition final_accumulator (w1 w2 w3 : list (list Z)) (shifts : list Z)
  (a : list Z) : res (list Z) :=
  acc1 ← matmul32 w1 a;
  s ← index shifts 0;
  let out1 := rescale acc1 s in
  let out1 := relu out1 in
  acc2 ← matmul32 w2 out1;
  s ← index shifts 1;
  let out2 := rescale acc2 s in
  let out2 := relu out2 in
  matmul32 w3 out2.

(** Lines 381-394: [pred] for one sample. *)
Definition predict (w1 w2 w3 : list (list Z)) (shifts : list Z) (a : list Z)
  : res nat :=
  acc3 ← final_accumulator w1 w2 w3 shifts a;
  s ← index shifts 2;
  let out3 := rescale acc3 s in
  np_argmax out3.

(** The counters [correct] and [total] that line 400 prints; a batch is its
    [acts] with its labels, and the accuracy of line 399 divides by [total]. *)
Definition verify_int8_inference (w1 w2 w3 : list (list Z))
  (test_loader : list (list (list Z) * list Z)) (shifts : list Z)
  : res (nat * nat) :=
  counters ← for_each test_loader
    (fun batch counters =>
       match batch.1 with
       | [] => Raise RuntimeError
       | _ =>
           for_range (length batch.1)
             (fun b counters =>
                a ← index batch.1 b;
                pred ← predict w1 w2 w3 shifts a;
                target ← index batch.2 b;
                mret (if Z.of_nat pred =? target
                      then (S counters.1, S counters.2)
                      else (counters.1, S counters.2)))
             counters
       end) (0%nat, 0%nat);
  match counters.2 with
  | O => Raise ZeroDivisionError
  | _ => Ok counters
  end.

(** ** Weight packing (lines 215-236) *)

(** The 2-bit code of a weight (lines 229-234). *)
Definition encode (val : Z) : Z :=
  if val =? 1 then 1 else if val =? -1 then 2 else 0.

(** [w[row, col]] for in-range or too large indices. *)
Definition index2 (w : list (list Z)) (row col : nat) : res Z :=
  r ← index w row;
  index r col.

Definition tiles_per_row (k : nat) : nat := ((k + 127) / 128)%nat.

(** Lines 225-235: the 8 words of one tile.  [i // 16] is below 8, so the
    update of [packed] is always in range. *)
Definition pack_tile (w : list (list Z)) (k row tile : nat) : res (list Z) :=
  for_range 128
    (fun i packed =>
       let col := (tile * 128 + i)%nat in
       val ← (if (col <? k)%nat then index2 w row col else Ok 0);
       let enc := encode val in
       mret (alter (fun word =>
                      Z.lor word (Z.shiftl enc (Z.of_nat ((i mod 16) * 2))))
                   (i / 16)%nat packed))
    [0; 0; 0; 0; 0; 0; 0; 0].

(** Lines 222-236: [word_list] for a layer with [m] rows and [k] columns. *)
Definition word_list (w : list (list Z)) (k m : nat) : res (list Z) :=
  for_range m
    (fun row word_list =>
       for_range (tiles_per_row k)
         (fun tile word_list =>
            packed ← pack_tile w k row tile;
            mret (word_list ++ packed))
         word_list)
    [].

(** Line 217. *)
Definition total_words (k m : nat) : nat := (m * tiles_per_row k * 8)%nat.

(** ** Decoding of the packed format *)

(** The 2-bit field at position [p] of a word. *)
Definition field (word : Z) (p : nat) : Z :=
  Z.land (Z.shiftr word (Z.of_nat (p * 2))) 3.

(** Modelled from the spec: the decoder of the packed format is not part of
    [train_mnist.py].  [decode] is the inverse of the encoding table: [00] is
    0, [01] is +1, [10] is -1, and [11] is not a code. *)
Definition decode (bits : Z) : option Z :=
  if bits =? 0 then Some 0
  else if bits =? 1 then Some 1
  else if bits =? 2 then Some (-1)
  else None.

(** Modelled from the spec: the field of column [col] of [row] in the packed
    words, which no function of [train_mnist.py] reads back.  It lies in tile
    [col / 128], at word index [position / 16] and bit offset
    [(position mod 16) * 2] for the position [col mod 128] within the tile;
    the tiles of a row follow each other, rows first, 8 words per tile. *)
Definition packed_field (words : list Z) (k row col : nat) : option Z :=
  let tile := (col / 128)%nat in
  let i := (col mod 128)%nat in
  word ← words !! ((row * tiles_per_row k + tile) * 8 + i / 16)%nat;
  Some (field word (i mod 16)).

(** Modelled from the spec: the decoded weight at a column of a row, the
    decoder being absent from [train_mnist.py]. *)
Definition unpack_entry (words : list Z) (k row col : nat) : option Z :=
  packed_field words k row col ≫= decode.

(** Modelled from the spec: the decoded [m] x [k] matrix, each row cut to its
    [k] columns so that the padding of a ragged last tile is dropped; the
    decoder is absent from [train_mnist.py]. *)
Definition unpack (words : list Z) (k m : nat) : option (list (list Z)) :=
  mapM (fun row => mapM (fun col => unpack_entry words k row col) (seq 0 k))
       (seq 0 m).

(** ** Shapes and contents used in the statements *)

(** [w] is an [m] x [k] array. *)
Definition has_shape (w : list (list Z)) (m k : nat) : Prop :=
  length w = m /\ Forall (fun row => length row = k) w.

(** The value [val] of line 228 at a column of a tile, padding included. *)
Definition entry (w : list (list Z)) (k row col : nat) : Z :=
  if (col <? k)%nat then default 0 (w !! row ≫= (.!! col)) else 0.

(** [packed] holds, after [n] positions of the tile [tile] of [row] have been
    written, the codes of these positions and zeros elsewhere. *)
Definition tile_holds (w : list (list Z)) (k row tile n : nat)
  (packed : list Z) : Prop :=
  length packed = 8%nat
  /\ forall j, (j < 8)%nat ->
       exists word,
         packed !! j = Some word
         /\ 0 <= word < 4294967296
         /\ forall p, (p < 16)%nat ->
              field word p
              = if (16 * j + p <? n)%nat
                then encode (entry w k row (tile * 128 + (16 * j + p)))
                else 0.

(** [blocks] holds, row by row and tile by tile, the packed tiles of [w]. *)
Definition blocks_hold (w : list (list Z)) (k m : nat)
  (blocks : list (list (list Z))) : Prop :=
  length blocks = m
  /\ forall row, (row < m)%nat ->
       exists tiles,
         blocks !! row = Some tiles
         /\ length tiles = tiles_per_row k
         /\ forall tile, (tile < tiles_per_row k)%nat ->
              exists packed,
                tiles !! tile = Some packed
                /\ tile_holds w k row tile 128 packed.

(** ** Emission of the packed words (lines 238-252) *)

(** Lines 239-243: one line of text per chunk [word_list[i:i+8]], for
    [i in range(0, len(word_list), 8)], with the flag of its trailing comma. *)
Definition packed_lines (word_list : list Z) : list (list Z * bool) :=
  (fun q => let i := (q * 8)%nat in
            (take 8 (drop i word_list), (i + 8 <? length word_list)%nat))
    <$> seq 0 ((length word_list + 7) / 8).

(** Line 251. *)
Definition ddr3_bytes (k m : nat) : nat := (m * tiles_per_row k * 32)%nat.

(** ** Test data (lines 260-307) *)

(** The outcome of one iteration of a loop with [break]. *)
Inductive loop_step (S : Type) : Type :=
| Next (s : S)
| Break (s : S).

Arguments Next {S} s.
Arguments Break {S} s.

(** [for x in l], left at the first [break] or exception. *)
Fixpoint for_each_break {A S : Type} (l : list A)
  (body : A -> S -> res (loop_step S)) (s : S) : res S :=
  match l with
  | [] => Ok s
  | x :: l' =>
      r ← body x s;
      match r with
      | Next s' => for_each_break l' body s'
      | Break s' => Ok s'
      end
  end.

(** Lines 262-274: the lists [images] and [labels]; a batch is its int8
    images (line 270) with its labels. *)
Definition collect_test_images (test_loader : list (list (list Z) * list Z))
  (num_images : Z) : res (list (list Z) * list Z) :=
  for_each_break test_loader
    (fun batch st =>
       st ← for_each_break (seq 0 (length batch.1))
         (fun i st =>
            if Z.of_nat (length st.1) >=? num_images then Ok (Break st)
            else
              img_int8 ← index batch.1 i;
              label ← index batch.2 i;
              mret (Next (st.1 ++ [img_int8], st.2 ++ [label])))
         st;
       if Z.of_nat (length st.1) >=? num_images then Ok (Break st)
       else Ok (Next st))
    ([], []).

(** Lines 295-296: the 28 slices [img[r*28:(r+1)*28]] written for an image. *)
Definition image_rows (img : list Z) : list (list Z) :=
  (fun r => take 28 (drop (r * 28) img)) <$> seq 0 28.

(** ** Values used in the statements *)

(** The word whose 2-bit fields are [codes], lowest field first. *)
Definition codes_word (codes : list Z) : Z :=
  foldr (fun c word => c + 4 * word) 0 codes.

(** The labelled samples of a test loader, in order. *)
Definition labelled (test_loader : list (list (list Z) * list Z))
  : list (list Z * Z) :=
  concat ((fun batch => zip batch.1 batch.2) <$> test_loader).

(** Whether a labelled sample is counted as correct (lines 394-396). *)
Definition is_correct (w1 w2 w3 : list (list Z)) (shifts : list Z)
  (sample : list Z * Z) : bool :=
  match predict w1 w2 w3 shifts sample.1 with
  | Ok pred => Z.of_nat pred =? sample.2
  | Raise _ => false
  end.

(** ** Ternary quantization (lines 22-39) *)

(** A float32 is a [spec_float] of the Standard Library at precision 24 and
    maximal exponent 128, its operations rounding to nearest, ties to even.
    The values a tensor holds are the canonical ones, [valid_binary]. *)
Definition float32 : Set := spec_float.

Definition is_float32 (x : float32) : Prop := valid_binary 24 128 x = true.

(** A Python integer where torch expects a float32: [0], [-1], [1] and the
    element count of a tensor. *)
Definition f32_of_Z (n : Z) : float32 := binary_normalize 24 128 n 0 false.

Definition f32_add : float32 -> float32 -> float32 := SFadd 24 128.

Definition f32_div : float32 -> float32 -> float32 := SFdiv 24 128.

(** [max] and [min] as [clamp] takes them: NaN propagates. *)
Definition f32_max (x y : float32) : float32 :=
  match x, y with
  | S754_nan, _ | _, S754_nan => S754_nan
  | _, _ => if SFltb x y then y else x
  end.

Definition f32_min (x y : float32) : float32 :=
  match x, y with
  | S754_nan, _ | _, S754_nan => S754_nan
  | _, _ => if SFltb y x then y else x
  end.

(** [torch.round] of one element: the nearest integer, a tie going to the
    even one; the sign is kept, so that a negative value may round to [-0.0];
    infinities and NaN are returned as they are.  A float with a non-negative
    exponent is an integer already. *)
Definition f32_round (x : float32) : float32 :=
  match x with
  | S754_finite s m e =>
      if 0 <=? e then x
      else
        let q := Z.pos m / 2 ^ (- e) in
        let r := Z.pos m mod 2 ^ (- e) in
        let n := match r ?= 2 ^ (- e - 1) with
                 | Lt => q
                 | Eq => if Z.even q then q else q + 1
                 | Gt => q + 1
                 end in
        match n with
        | Z.pos p => binary_round 24 128 s p 0
        | _ => S754_zero s
        end
  | _ => x
  end.

(** [w.abs()] *)
Definition torch_abs (w : list (list float32)) : list (list float32) :=
  map (map SFabs) w.

(** [w.numel()] *)
Definition numel (w : list (list float32)) : nat := length (concat w).

(** [w.sum()]: the float32 sum of all elements, accumulated from [0.0] in
    row-major order.  (On a long tensor torch may associate the additions
    differently, which moves the sum by rounding errors only.) *)
Definition torch_sum (w : list (list float32)) : float32 :=
  fold_left f32_add (concat w) (S754_zero false).

(** [w.mean()]: the sum divided by the element count; the mean of an empty
    tensor is NaN. *)
Definition torch_mean (w : list (list float32)) : float32 :=
  f32_div (torch_sum w) (f32_of_Z (Z.of_nat (numel w))).

(** [torch.zeros_like(w)] *)
Definition zeros_like (w : list (list float32)) : list (list float32) :=
  map (map (fun _ => S754_zero false)) w.

(** [w / alpha] for a scalar [alpha] *)
Definition torch_div (w : list (list float32)) (alpha : float32)
  : list (list float32) :=
  map (map (fun x => f32_div x alpha)) w.

(** [w.clamp(lo, hi)] *)
Definition clamp (w : list (list float32)) (lo hi : float32)
  : list (list float32) :=
  map (map (fun x => f32_min (f32_max x lo) hi)) w.

(** [w.round()] *)
Definition torch_round (w : list (list float32)) : list (list float32) :=
  map (map f32_round) w.

(** [TernaryQuantize.forward] (lines 27-32). *)
Definition forward (w : list (list float32)) : list (list float32) :=
  let alpha := torch_mean (torch_abs w) in
  if SFeqb alpha (f32_of_Z 0) then zeros_like w
  else
    let w_scaled := clamp (torch_div w alpha) (f32_of_Z (-1)) (f32_of_Z 1) in
    torch_round w_scaled.

(** [ternary_quantize] (lines 38-39). *)
Definition ternary_quantize (w : list (list float32)) : list (list float32) :=
  forward w.







(** *** The quantizer over exact numbers

    The rule of the specification (section 4.1) read over the rationals, with
    which [forward] is compared: [alpha] is the exact mean of the absolute
    values; the result is zero when [alpha = 0] and otherwise the clamped
    quotient rounded to the nearest integer, ties to even. *)

(** The number a finite float32 stands for. *)
Definition float32_value (x : float32) : Q :=
  match x with
  | S754_finite s m e =>
      ((if s then inject_Z (Z.neg m) else inject_Z (Z.pos m)) * (2 # 1) ^ e)%Q
  | _ => 0%Q
  end.

Definition Qmean_abs (w : list (list Q)) : Q :=
  (fold_right Qplus 0 (map Qabs (concat w))
   / inject_Z (Z.of_nat (length (concat w))))%Q.

Definition Qclamp (lo hi x : Q) : Q :=
  if Qle_bool x lo then lo else if Qle_bool hi x then hi else x.

Definition round_half_even (x : Q) : Z :=
  let f := Qfloor x in
  match (x - inject_Z f ?= 1 # 2)%Q with
  | Lt => f
  | Eq => if Z.even f then f else f + 1
  | Gt => f + 1
  end.

Definition spec_quantize (w : list (list Q)) : list (list Z) :=
  let alpha := Qmean_abs w in
  if Qeq_bool alpha 0 then map (map (fun _ => 0)) w
  else map (map (fun x => round_half_even (Qclamp (-1) 1 (x / alpha)))) w.

(** ** Test vectors *)

(** A row of [n] entries, zero except at the listed positions. *)
Definition sparse_row (n : nat) (entries : list (nat * Z)) : list Z :=
  (fun j => default 0 ((fun e => e.2.2) <$> list_find (fun e => e.1 = j) entries))
    <$> seq 0 n.

(** An [m] x [n] matrix from its first rows, the others being zero. *)
Definition sparse_matrix (m n : nat) (rows : list (list (nat * Z)))
  : list (list Z) :=
  (fun i => sparse_row n (default [] (rows !! i))) <$> seq 0 m.

(** Ternary weights of the shapes of [BitNetMNIST] (256 x 784, 128 x 256 and
    10 x 128) and an image whose first two pixels are 1.0, hence 127, and
    whose other pixels are 0. *)
Definition mnist_w1 : list (list Z) :=
  sparse_matrix 256 784 [[(0%nat, 1)]; [(0%nat, 1); (1%nat, 1)]].

Definition mnist_w2 : list (list Z) :=
  sparse_matrix 128 256
    [[(0%nat, 1); (1%nat, 1)]; [(0%nat, 1)]; [(0%nat, -1); (1%nat, 1)];
     [(1%nat, 1)]].

Definition mnist_w3 : list (list Z) :=
  sparse_matrix 10 128
    [[(1%nat, 1); (3%nat, 1)]; [(0%nat, 1)]; [(0%nat, -1); (3%nat, -1)]].

Definition mnist_image : list Z :=
  sparse_row 784 [(0%nat, 127); (1%nat, 127)].

(** A small network and calibration set with accumulators of both signs. *)
Definition small_w1 : list (list Z) := [[1; 1; 1]; [-1; -1; -1]; [1; 1; 0]].
Definition small_w2 : list (list Z) := [[1; 1; 1]; [1; 0; 1]; [-1; -1; -1]].
Definition small_w3 : list (list Z) := [[1; 1; 0]; [-1; -1; 1]].
Definition small_loader : list (list (list Z)) :=
  [[[100; 27; 5]; [127; 127; 127]]; [[0; 64; 127]]].
Definition small_loader_reordered : list (list (list Z)) :=
  [[[0; 64; 127]; [127; 127; 127]]; [[100; 27; 5]]].


Definition overflow_w : list (list float32) :=
  [[S754_finite false 16777215 104; S754_finite true 16777215 104]].



(** * Properties *)

(** ** Shift search *)

Lemma shiftr_succ (x s : Z) :
  0 <= s -> Z.shiftr x (s + 1) = Z.shiftr x s / 2.
Proof.
  intros Hs.
  rewrite <- (Z.shiftr_shiftr x s 1) by lia.
  now rewrite (Z.shiftr_div_pow2 _ 1) by lia.
Qed.

(** The loop leaves at the first shift, from its entry value on, whose
    shifted value is at most 127. *)
Lemma find_shift_loop_first (max_val shift : Z) :
  shift <= find_shift_loop max_val shift
  /\ Z.shiftr max_val (find_shift_loop max_val shift) <= 127
  /\ forall t, shift <= t < find_shift_loop max_val shift ->
               Z.shiftr max_val t > 127.
Proof.
  funelim (find_shift_loop max_val shift).
  - destruct H as (Hle & Hfit & Hbefore).
    repeat split; [lia | exact Hfit |].
    intros t Ht. destruct (decide (t = shift)) as [-> | Hne]; [assumption |].
    apply Hbefore. lia.
  - repeat split; [lia | lia |]. intros t Ht. lia.
Qed.

Lemma find_shift_for_max_spec (m : Z) :
  0 <= find_shift_for_max m
  /\ Z.shiftr m (find_shift_for_max m) <= 127
  /\ forall t, 0 <= t < find_shift_for_max m -> Z.shiftr m t > 127.
Proof.
  unfold find_shift_for_max. destruct (Z.eqb_spec m 0) as [-> | Hm].
  - repeat split; [lia | rewrite Z.shiftr_0_l; lia | intros t Ht; lia].
  - apply find_shift_loop_first.
Qed.

(** C1. Shift minimality: for a non-negative maximum magnitude [m] the shift
    [s] returned by [find_shift_for_max] satisfies [(m >> s) <= 127], and
    [(m >> (s-1)) > 127] whenever [s > 0]; [s = 0] whenever [m = 0]. *)
Theorem find_shift_for_max_minimal (m : Z) :
  0 <= m ->
  let s := find_shift_for_max m in
  0 <= s
  /\ Z.shiftr m s <= 127
  /\ (0 < s -> Z.shiftr m (s - 1) > 127)
  /\ (m = 0 -> s = 0).
Proof.
  intros Hm s. subst s.
  destruct (find_shift_for_max_spec m) as (Hs & Hfit & Hbefore).
  repeat split; [assumption | assumption | |].
  - intros Hpos. apply Hbefore. lia.
  - intros ->. reflexivity.
Qed.

Lemma find_shift_for_max_minimal_witness :
  0 <= 500 /\ find_shift_for_max 500 = 2
  /\ Z.shiftr 500 2 <= 127 /\ Z.shiftr 500 (2 - 1) > 127.
Proof.
  pose proof (find_shift_for_max_minimal 500 ltac:(lia)) as H.
  cbv zeta in H.
  assert (E : find_shift_for_max 500 = 2) by reflexivity.
  rewrite E in H. destruct H as (_ & Hfit & Hprev & _).
  split; [lia |]. split; [exact E |]. split; [exact Hfit | apply Hprev; lia].
Defined.

(** The guard fails for good after [n] iterations when the first [n] shifted
    values exceed 127 and the next one does not. *)
Lemma find_shift_run_exact (n : nat) (max_val shift : Z) (fuel : nat) :
  (forall t, shift <= t < shift + Z.of_nat n -> Z.shiftr max_val t > 127) ->
  Z.shiftr max_val (shift + Z.of_nat n) <= 127 ->
  (n < fuel)%nat ->
  find_shift_run fuel max_val shift = Some (shift + Z.of_nat n).
Proof.
  revert shift fuel. induction n as [| n IH]; intros shift fuel Hbefore Hfit Hfuel.
  - destruct fuel as [| fuel]; [lia |]. simpl. unfold find_shift_step.
    rewrite Z.add_0_r in *.
    destruct (Z.gtb_spec (Z.shiftr max_val shift) 127); [lia | reflexivity].
  - destruct fuel as [| fuel]; [lia |]. simpl. unfold find_shift_step.
    destruct (Z.gtb_spec (Z.shiftr max_val shift) 127) as [Hgt | Hle].
    + rewrite (IH (shift + 1) fuel); [f_equal; lia | | | lia].
      * intros t Ht. apply Hbefore. lia.
      * replace (shift + 1 + Z.of_nat n) with (shift + Z.of_nat (S n)) by lia.
        exact Hfit.
    + specialize (Hbefore shift ltac:(lia)). lia.
Qed.

Lemma shiftr_log2_small (m : Z) : 0 <= m -> Z.shiftr m (Z.log2 m) <= 127.
Proof.
  intros Hm. destruct (decide (m = 0)) as [-> | Hne].
  - rewrite Z.shiftr_0_l. lia.
  - rewrite Z.shiftr_div_pow2 by apply Z.log2_nonneg.
    destruct (Z.log2_spec m ltac:(lia)) as [Hlo Hhi].
    rewrite Z.pow_succ_r in Hhi by apply Z.log2_nonneg.
    assert (m / 2 ^ Z.log2 m < 2); [| lia].
    apply Z.div_lt_upper_bound; lia.
Qed.

(** C10. Termination of the shift search: for a non-negative input every
    iteration strictly decreases the non-negative value [max_val >> shift],
    and after at most [log2 max_val] iterations the guard fails: the loop,
    run with that many tests of the guard or more, returns the shift of
    [find_shift_for_max], whose shifted value is at most 127. *)
Theorem find_shift_for_max_terminates (m : Z) :
  0 <= m ->
  (forall shift, 0 <= shift -> Z.shiftr m shift > 127 ->
                 0 <= Z.shiftr m (shift + 1) < Z.shiftr m shift)
  /\ (forall fuel, (Z.to_nat (Z.log2 m) < fuel)%nat ->
                   find_shift_for_max_run fuel m = Some (find_shift_for_max m))
  /\ Z.shiftr m (find_shift_for_max m) <= 127.
Proof.
  intros Hm. split; [| split].
  - intros shift Hshift Hgt. rewrite shiftr_succ by assumption.
    split; [apply Z.div_pos; lia | apply Z.div_lt; lia].
  - intros fuel Hfuel.
    destruct (find_shift_for_max_spec m) as (Hs & Hfit & Hbefore).
    assert (Hbound : find_shift_for_max m <= Z.log2 m).
    { destruct (Z_le_gt_dec (find_shift_for_max m) (Z.log2 m)) as [| Hgt];
        [assumption |].
      pose proof (Hbefore (Z.log2 m) ltac:(pose proof (Z.log2_nonneg m); lia)).
      pose proof (shiftr_log2_small m Hm). lia. }
    unfold find_shift_for_max_run.
    destruct (Z.eqb_spec m 0) as [-> | Hne]; [reflexivity |].
    rewrite (find_shift_run_exact (Z.to_nat (find_shift_for_max m)) m 0 fuel).
    + f_equal. lia.
    + intros t Ht. apply Hbefore. lia.
    + rewrite Z.add_0_l, Z2Nat.id by assumption. exact Hfit.
    + lia.
  - apply find_shift_for_max_spec.
Qed.

Lemma find_shift_for_max_terminates_witness :
  0 <= 100352
  /\ find_shift_for_max_run 17 100352 = Some (find_shift_for_max 100352)
  /\ Z.shiftr 100352 (find_shift_for_max 100352) <= 127.
Proof.
  destruct (find_shift_for_max_terminates 100352 ltac:(lia)) as (_ & Hrun & Hfit).
  split; [lia |]. split; [apply Hrun; vm_compute; lia | exact Hfit].
Defined.

(** Membership of every element of a literal list in a range. *)
Ltac Forall_literal :=
  repeat (apply List.Forall_cons;
          [unfold is_ternary, is_int8, is_int32; lia |]);
  apply List.Forall_nil.

(** ** Fixed-width arithmetic *)

(** The casts are the arithmetic wrap-around modulo [2^32] and [2^8]. *)
Lemma astype_int32_mod (x : Z) :
  astype_int32 x = (x + 2 ^ 31) mod 2 ^ 32 - 2 ^ 31.
Proof.
  unfold astype_int32. change 4294967295 with (Z.ones 32).
  rewrite Z.land_ones by lia. reflexivity.
Qed.

Lemma astype_int8_mod (x : Z) : astype_int8 x = (x + 2 ^ 7) mod 2 ^ 8 - 2 ^ 7.
Proof.
  unfold astype_int8. change 255 with (Z.ones 8).
  rewrite Z.land_ones by lia. reflexivity.
Qed.

Lemma astype_int32_id (x : Z) : is_int32 x -> astype_int32 x = x.
Proof.
  unfold is_int32. intros Hx. rewrite astype_int32_mod.
  change (2 ^ 31) with 2147483648. change (2 ^ 32) with 4294967296.
  rewrite Z.mod_small; lia.
Qed.

Lemma astype_int8_id (x : Z) : is_int8 x -> astype_int8 x = x.
Proof.
  unfold is_int8. intros Hx. rewrite astype_int8_mod.
  change (2 ^ 7) with 128. change (2 ^ 8) with 256.
  rewrite Z.mod_small; lia.
Qed.

Lemma is_int8_int32 (x : Z) : is_int8 x -> is_int32 x.
Proof. unfold is_int8, is_int32. lia. Qed.

Lemma is_ternary_int8 (x : Z) : is_ternary x -> is_int8 x.
Proof. unfold is_ternary, is_int8. lia. Qed.

Lemma map_astype_int32_id (l : list Z) :
  Forall is_int32 l -> astype_int32 <$> l = l.
Proof.
  induction 1 as [| x l Hx _ IH]; [reflexivity |].
  rewrite fmap_cons, IH, astype_int32_id by assumption. reflexivity.
Qed.

(** ** Accumulators *)

Lemma Forall_zip_pair {A B : Type} (P : A -> Prop) (Q : B -> Prop)
  (l : list A) (k : list B) :
  Forall P l -> Forall Q k -> Forall (fun p => P p.1 /\ Q p.2) (zip l k).
Proof.
  intros Hl. revert k. induction Hl as [| x l Hx _ IH]; intros k Hk.
  - constructor.
  - destruct Hk as [| y k Hy Hk]; [constructor |].
    simpl. constructor; [split; assumption | apply IH; assumption].
Qed.

(** As long as the products are bounded by [B] and the bound on the running
    sum stays below [2^31], the wrapping sum is the exact one. *)
Lemma foldl_dot32_exact (B : Z) (l : list (Z * Z)) (acc : Z) :
  Forall (fun p => Z.abs (p.1 * p.2) <= B) l ->
  Z.abs acc + Z.of_nat (length l) * B <= 2147483647 ->
  foldl (fun acc p => astype_int32 (acc + astype_int32 (p.1 * p.2))) acc l
  = acc + foldr (fun p s => p.1 * p.2 + s) 0 l
  /\ Z.abs (foldr (fun p s => p.1 * p.2 + s) 0 l) <= Z.of_nat (length l) * B.
Proof.
  intros Hl. revert acc. induction Hl as [| p l Hp _ IH]; intros acc Hacc.
  - simpl. split; lia.
  - simpl foldl. simpl foldr. simpl length in *.
    assert (0 <= B) by lia.
    rewrite (astype_int32_id (p.1 * p.2)) by (unfold is_int32; nia).
    rewrite astype_int32_id by (unfold is_int32; nia).
    destruct (IH (acc + p.1 * p.2)) as [Heq Hbound]; [nia |].
    rewrite Heq. split; [lia | nia].
Qed.

Lemma dot32_exact (Bw Ba : Z) (row a : list Z) :
  0 <= Bw -> 0 <= Ba ->
  Forall (fun w => Z.abs w <= Bw) row ->
  Forall (fun x => Z.abs x <= Ba) a ->
  Forall is_int32 row -> Forall is_int32 a ->
  Z.of_nat (length (zip row a)) * (Bw * Ba) <= 2147483647 ->
  dot32 row a = dot row a
  /\ Z.abs (dot row a) <= Z.of_nat (length (zip row a)) * (Bw * Ba).
Proof.
  intros HBw HBa Hrow Ha Hrow32 Ha32 Hlen. unfold dot32, dot.
  rewrite !map_astype_int32_id by assumption.
  destruct (foldl_dot32_exact (Bw * Ba) (zip row a) 0) as [Heq Hbound].
  - eapply List.Forall_impl; [| exact (Forall_zip_pair _ _ _ _ Hrow Ha)].
    intros [w x] [Hw Hx]. simpl in *. rewrite Z.abs_mul. nia.
  - simpl. lia.
  - rewrite Heq. split; [lia | exact Hbound].
Qed.

Lemma Forall_ternary_abs (row : list Z) :
  Forall is_ternary row -> Forall (fun w => Z.abs w <= 1) row.
Proof. apply List.Forall_impl. unfold is_ternary. lia. Qed.

Lemma Forall_int8_abs (a : list Z) :
  Forall is_int8 a -> Forall (fun x => Z.abs x <= 128) a.
Proof. apply List.Forall_impl. unfold is_int8. lia. Qed.

Lemma Forall_int8_int32 (a : list Z) : Forall is_int8 a -> Forall is_int32 a.
Proof. apply List.Forall_impl, is_int8_int32. Qed.

(** The claimed bound [K * 127] fails at the activation [-128]. *)
Lemma dot32_bound_127_fails :
  ~ (forall row a : list Z,
        Forall is_ternary row -> Forall is_int8 a ->
        length row = length a -> (length a <= 784)%nat ->
        dot32 row a = dot row a
        /\ Z.abs (dot32 row a) <= Z.of_nat (length a) * 127
        /\ is_int32 (dot row a)).
Proof.
  intros H.
  destruct (H [1] [-128]) as (_ & Hbound & _).
  - Forall_literal.
  - Forall_literal.
  - reflexivity.
  - simpl. lia.
  - vm_compute in Hbound. apply Hbound. reflexivity.
Qed.

(** C8 (amended). Accumulator exactness and bound: for a weight row with
    elements in {-1, 0, +1} and an activation vector of the same length
    [K <= 784] with elements in [-128, 127], the int32 dot product of the
    pipeline is the exact dot product, no partial sum leaves the int32 range,
    and the magnitude is at most [K * 128]; it is at most [K * 127] when no
    activation is [-128]. *)
Theorem dot32_exact_bounded (row a : list Z) :
  Forall is_ternary row -> Forall is_int8 a ->
  length row = length a -> (length a <= 784)%nat ->
  dot32 row a = dot row a
  /\ Z.abs (dot row a) <= Z.of_nat (length a) * 128
  /\ (forall n, is_int32 (dot (take n row) (take n a)))
  /\ (Forall (fun x => -127 <= x) a ->
      Z.abs (dot row a) <= Z.of_nat (length a) * 127).
Proof.
  intros Hrow Ha Hlen HK.
  assert (Hzip : forall r b : list Z, length r = length b ->
                                      length (zip r b) = length b).
  { intros r b E. rewrite length_zip_with. lia. }
  destruct (dot32_exact 1 128 row a) as [Heq Hbound];
    [lia | lia | apply Forall_ternary_abs, Hrow | apply Forall_int8_abs, Ha
     | apply Forall_int8_int32; eapply List.Forall_impl;
       [apply is_ternary_int8 | exact Hrow]
     | apply Forall_int8_int32, Ha | rewrite Hzip by assumption; lia |].
  rewrite Hzip in Hbound by assumption.
  split; [exact Heq |]. split; [lia |]. split.
  - intros n.
    destruct (dot32_exact 1 128 (take n row) (take n a)) as [_ Hn];
      [lia | lia | apply Forall_take, Forall_ternary_abs, Hrow
       | apply Forall_take, Forall_int8_abs, Ha
       | apply Forall_take, Forall_int8_int32; eapply List.Forall_impl;
         [apply is_ternary_int8 | exact Hrow]
       | apply Forall_take, Forall_int8_int32, Ha
       | rewrite Hzip, length_take by (rewrite !length_take; lia); lia |].
    rewrite Hzip, length_take in Hn by (rewrite !length_take; lia).
    unfold is_int32. lia.
  - intros H127.
    destruct (dot32_exact 1 127 row a) as [_ Hb];
      [lia | lia | apply Forall_ternary_abs, Hrow
       | rewrite Forall_forall in *; intros x Hx;
         specialize (Ha x Hx); specialize (H127 x Hx);
         unfold is_int8 in Ha; simpl in H127; lia
       | apply Forall_int8_int32; eapply List.Forall_impl;
         [apply is_ternary_int8 | exact Hrow]
       | apply Forall_int8_int32, Ha | rewrite Hzip by assumption; lia |].
    rewrite Hzip in Hb by assumption. lia.
Qed.

Lemma dot32_exact_bounded_witness :
  dot32 [1; -1; 0; 1] [10; 20; 30; 40] = dot [1; -1; 0; 1] [10; 20; 30; 40]
  /\ dot [1; -1; 0; 1] [10; 20; 30; 40] = 30.
Proof.
  split; [| reflexivity].
  apply (dot32_exact_bounded [1; -1; 0; 1] [10; 20; 30; 40]).
  - Forall_literal.
  - Forall_literal.
  - reflexivity.
  - simpl. lia.
Defined.

(** ** The exception monad *)

Lemma bind_Ok {A B : Type} (m : res A) (f : A -> res B) (b : B) :
  m ≫= f = Ok b -> exists a, m = Ok a /\ f a = Ok b.
Proof. destruct m as [a | e]; [eauto | discriminate]. Qed.

(** Splits a hypothesis [x ← m; k = Ok b] into the two successful steps. *)
Ltac bind_inv H :=
  let a := fresh "v" in
  let Ha := fresh "Hv" in
  apply bind_Ok in H; destruct H as (a & Ha & H).

(** ** Calibration *)

Lemma foldl_max_ge (l : list Z) (x : Z) :
  x <= foldl Z.max x l /\ Forall (fun y => y <= foldl Z.max x l) l.
Proof.
  revert x. induction l as [| y l IH]; intros x; simpl.
  - split; [lia | constructor].
  - destruct (IH (Z.max x y)) as [Hx Hl]. split; [lia |].
    constructor; [lia | exact Hl].
Qed.

Lemma np_max_ge (l : list Z) (m : Z) :
  np_max l = Ok m -> Forall (fun y => y <= m) l.
Proof.
  destruct l as [| x l]; [discriminate |]. intros [= <-].
  destruct (foldl_max_ge l x) as [Hx Hl]. constructor; assumption.
Qed.

Lemma matmul32_Ok (w : list (list Z)) (a acc : list Z) :
  matmul32 w a = Ok acc ->
  acc = (fun row => dot32 row a) <$> w
  /\ Forall (fun row => length row = length a) w.
Proof.
  unfold matmul32.
  destruct (forallb _ w) eqn:E; [| discriminate]. intros [= <-].
  split; [reflexivity |].
  rewrite forallb_forall in E. apply List.Forall_forall. intros row Hrow.
  apply Nat.eqb_eq, E, Hrow.
Qed.

(** A pass returns a bound on the magnitude [np.abs] of every accumulator of
    every sample. *)
Lemma for_each_track_max (f : list Z -> res (list Z)) (l : list (list Z))
  (init M : Z) :
  for_each l (fun a max_acc => acc ← f a; track_max max_acc acc) init = Ok M ->
  init <= M
  /\ Forall (fun a => exists acc, f a = Ok acc
                                  /\ Forall (fun x => np_abs x <= M) acc) l.
Proof.
  revert init. induction l as [| a l IH]; intros init H; simpl in H.
  - injection H as <-. split; [lia | constructor].
  - bind_inv H. bind_inv Hv. unfold track_max in Hv. bind_inv Hv.
    injection Hv as <-.
    destruct (IH _ H) as [Hinit Hl]. split; [lia |].
    constructor; [| exact Hl].
    exists v0. split; [assumption |].
    apply np_max_ge in Hv1. rewrite List.Forall_map in Hv1.
    eapply List.Forall_impl; [| exact Hv1]. simpl. intros x Hx. lia.
Qed.

Lemma calibration_pass_bound (f : list Z -> res (list Z))
  (l : list (list Z)) (M : Z) :
  calibration_pass f l = Ok M ->
  0 <= M
  /\ Forall (fun a => exists acc, f a = Ok acc
                                  /\ Forall (fun x => np_abs x <= M) acc) l.
Proof. apply for_each_track_max. Qed.

Lemma for_each_collect (loader all_acts result : list (list (list Z))) :
  for_each loader
    (fun acts all_acts =>
       match acts with
       | [] => Raise RuntimeError
       | _ => Ok (all_acts ++ [acts])
       end) all_acts = Ok result ->
  result = all_acts ++ loader /\ Forall (fun acts => acts <> []) loader.
Proof.
  revert all_acts. induction loader as [| acts loader IH]; intros all_acts H.
  - injection H as <-. rewrite app_nil_r. split; [reflexivity | constructor].
  - simpl in H. bind_inv H. destruct acts as [| a acts]; [discriminate |].
    injection Hv as <-. destruct (IH _ H) as [-> Hne].
    rewrite <- app_assoc. split; [reflexivity |].
    constructor; [discriminate | exact Hne].
Qed.

Lemma collect_int8_inputs_Ok (loader : list (list (list Z)))
  (all_inputs : list (list Z)) :
  collect_int8_inputs loader = Ok all_inputs ->
  all_inputs = concat loader /\ loader <> []
  /\ Forall (fun acts => acts <> []) loader.
Proof.
  unfold collect_int8_inputs. intros H. bind_inv H.
  apply for_each_collect in Hv. destruct Hv as [-> Hne]. simpl in H.
  destruct loader as [| acts loader]; [discriminate |].
  simpl in H. destruct (forallb _ loader); [| discriminate].
  injection H as <-. split; [reflexivity |]. split; [discriminate | exact Hne].
Qed.

Lemma dot32_int8 (row a : list Z) :
  Forall is_int8 row -> Z.of_nat (length row) <= 131071 -> Forall is_int8 a ->
  dot32 row a = dot row a /\ np_abs (dot32 row a) = Z.abs (dot row a).
Proof.
  intros Hrow Hlen Ha.
  assert (Hzip : (length (zip row a) <= length row)%nat)
    by (rewrite length_zip_with; lia).
  destruct (dot32_exact 128 128 row a) as [Heq Hbound];
    [lia | lia | apply Forall_int8_abs, Hrow | apply Forall_int8_abs, Ha
     | apply Forall_int8_int32, Hrow | apply Forall_int8_int32, Ha | lia |].
  split; [exact Heq |]. rewrite Heq. unfold np_abs.
  apply astype_int32_id. unfold is_int32. lia.
Qed.

Lemma shiftr_fits (x M s : Z) :
  0 <= s -> Z.abs x <= M -> Z.shiftr M s <= 127 -> is_int8 (Z.shiftr x s).
Proof.
  intros Hs Hx HM. rewrite Z.shiftr_div_pow2 in * by assumption.
  assert (Hd : 0 < 2 ^ s) by (apply Z.pow_pos_nonneg; lia).
  pose proof (Z.div_mod M (2 ^ s) ltac:(lia)) as HMd.
  pose proof (Z.mod_pos_bound M (2 ^ s) Hd) as Hr.
  unfold is_int8. split.
  - apply Z.div_le_lower_bound; [exact Hd | nia].
  - transitivity (M / 2 ^ s); [| exact HM].
    apply Z.div_le_mono; lia.
Qed.

Lemma relu_rescale_int8 (acc : list Z) (s : Z) :
  Forall is_int8 (relu_rescale acc s).
Proof.
  unfold relu_rescale. rewrite List.Forall_map. apply List.Forall_forall.
  intros x _. simpl. unfold clip.
  rewrite astype_int8_id; unfold is_int8; lia.
Qed.

(** Accumulators of a layer fit int8 after the shift found from a bound on
    their [np.abs]. *)
Lemma layer_fits (w : list (list Z)) (a acc : list Z) (M : Z) :
  int8_weights w -> Forall is_int8 a ->
  matmul32 w a = Ok acc ->
  Forall (fun x => np_abs x <= M) acc ->
  Forall (fun x => is_int8 (Z.shiftr x (find_shift_for_max M))) acc.
Proof.
  intros Hw Ha Hacc HM. apply matmul32_Ok in Hacc. destruct Hacc as [-> _].
  rewrite List.Forall_map in *. unfold int8_weights in Hw.
  rewrite List.Forall_forall in Hw, HM. apply List.Forall_forall.
  intros row Hrow.
  destruct (Hw row Hrow) as [Hrow8 Hlen].
  destruct (dot32_int8 row a Hrow8 Hlen Ha) as [Heq Habs].
  specialize (HM row Hrow). simpl in HM. rewrite Habs, <- Heq in HM.
  destruct (find_shift_for_max_spec M) as (Hs & Hfit & _).
  eapply shiftr_fits; eassumption.
Qed.

(** C2. Calibrated-shift range invariant: when [calibrate_shift] returns the
    shifts [s1; s2; s3] for int8 weights and an int8 calibration set, then
    for every sample of the set every accumulator of layer 1, of layer 2
    (computed under [s1]) and of layer 3 (computed under [s1] and [s2]),
    arithmetically shifted right by the shift of its layer, lies in
    [-128, 127], the negative accumulators included. *)
Theorem calibrated_shifts_fit (w1 w2 w3 : list (list Z))
  (cal_loader : list (list (list Z))) (shifts : list Z) :
  int8_weights w1 -> int8_weights w2 -> int8_weights w3 ->
  Forall (Forall (Forall is_int8)) cal_loader ->
  calibrate_shift w1 w2 w3 cal_loader = Ok shifts ->
  exists s1 s2 s3,
    shifts = [s1; s2; s3] /\ 0 <= s1 /\ 0 <= s2 /\ 0 <= s3
    /\ forall a, In a (concat cal_loader) ->
         exists acc1 acc2 acc3,
           acc_layer1 w1 a = Ok acc1
           /\ acc_layer2 w1 s1 w2 a = Ok acc2
           /\ acc_layer3 w1 s1 w2 s2 w3 a = Ok acc3
           /\ Forall (fun x => is_int8 (Z.shiftr x s1)) acc1
           /\ Forall (fun x => is_int8 (Z.shiftr x s2)) acc2
           /\ Forall (fun x => is_int8 (Z.shiftr x s3)) acc3.
Proof.
  intros Hw1 Hw2 Hw3 Hloader H. unfold calibrate_shift in H.
  bind_inv H. rename v into all_inputs.
  apply collect_int8_inputs_Ok in Hv. destruct Hv as (-> & _ & _).
  bind_inv H. rename v into max_acc1. bind_inv H. rename v into max_acc2.
  bind_inv H. rename v into max_acc3. injection H as <-.
  apply calibration_pass_bound in Hv, Hv0, Hv1.
  destruct Hv as [_ Hpass1], Hv0 as [_ Hpass2], Hv1 as [_ Hpass3].
  set (s1 := find_shift_for_max max_acc1) in *.
  set (s2 := find_shift_for_max max_acc2) in *.
  set (s3 := find_shift_for_max max_acc3) in *.
  exists s1, s2, s3. split; [reflexivity |].
  split; [apply find_shift_for_max_spec |].
  split; [apply find_shift_for_max_spec |].
  split; [apply find_shift_for_max_spec |].
  intros a Ha.
  assert (Ha8 : Forall is_int8 a).
  { apply in_concat in Ha. destruct Ha as (acts & Hacts & Ha).
    rewrite List.Forall_forall in Hloader. specialize (Hloader acts Hacts).
    rewrite List.Forall_forall in Hloader. exact (Hloader a Ha). }
  rewrite List.Forall_forall in Hpass1, Hpass2, Hpass3.
  destruct (Hpass1 a Ha) as (acc1 & Hacc1 & HM1).
  destruct (Hpass2 a Ha) as (acc2 & Hacc2 & HM2).
  destruct (Hpass3 a Ha) as (acc3 & Hacc3 & HM3).
  exists acc1, acc2, acc3.
  split; [exact Hacc1 |]. split; [exact Hacc2 |]. split; [exact Hacc3 |].
  unfold acc_layer1 in Hacc1. unfold acc_layer2 in Hacc2.
  unfold acc_layer3 in Hacc3. rewrite Hacc1 in Hacc2, Hacc3.
  simpl in Hacc2, Hacc3. rewrite Hacc2 in Hacc3. simpl in Hacc3.
  split; [| split].
  - exact (layer_fits w1 a acc1 max_acc1 Hw1 Ha8 Hacc1 HM1).
  - exact (layer_fits w2 _ acc2 max_acc2 Hw2 (relu_rescale_int8 _ _) Hacc2 HM2).
  - exact (layer_fits w3 _ acc3 max_acc3 Hw3 (relu_rescale_int8 _ _) Hacc3 HM3).
Qed.

Lemma calibrated_shifts_fit_witness :
  calibrate_shift small_w1 small_w2 small_w3 small_loader = Ok [2; 1; 1]
  /\ exists acc1 acc2 acc3,
       acc_layer1 small_w1 [127; 127; 127] = Ok acc1
       /\ acc_layer2 small_w1 2 small_w2 [127; 127; 127] = Ok acc2
       /\ acc_layer3 small_w1 2 small_w2 1 small_w3 [127; 127; 127] = Ok acc3
       /\ Forall (fun x => is_int8 (Z.shiftr x 2)) acc1
       /\ Forall (fun x => is_int8 (Z.shiftr x 1)) acc2
       /\ Forall (fun x => is_int8 (Z.shiftr x 1)) acc3.
Proof.
  assert (E : calibrate_shift small_w1 small_w2 small_w3 small_loader
              = Ok [2; 1; 1]) by (vm_compute; reflexivity).
  split; [exact E |].
  destruct (calibrated_shifts_fit small_w1 small_w2 small_w3 small_loader
              [2; 1; 1]) as (s1 & s2 & s3 & Hs & _ & _ & _ & Hfit).
  - repeat (apply List.Forall_cons; [split; [Forall_literal | simpl; lia] |]).
    apply List.Forall_nil.
  - repeat (apply List.Forall_cons; [split; [Forall_literal | simpl; lia] |]).
    apply List.Forall_nil.
  - repeat (apply List.Forall_cons; [split; [Forall_literal | simpl; lia] |]).
    apply List.Forall_nil.
  - repeat (apply List.Forall_cons;
            [repeat (apply List.Forall_cons; [Forall_literal |]);
             apply List.Forall_nil |]).
    apply List.Forall_nil.
  - exact E.
  - injection Hs as <- <- <-. apply Hfit. simpl. tauto.
Defined.

(** ** Calibration without samples *)

(** C6. Empty calibration set fails fast: on a loader without any sample
    [calibrate_shift] raises an exception (ValueError from [np.concatenate]
    when there is no batch, RuntimeError from [view] on a batch of zero
    samples) and returns no shifts. *)
Theorem calibrate_shift_empty (w1 w2 w3 : list (list Z))
  (cal_loader : list (list (list Z))) :
  concat cal_loader = [] ->
  calibrate_shift w1 w2 w3 cal_loader
  = Raise (match cal_loader with [] => ValueError | _ => RuntimeError end)
  /\ forall shifts, calibrate_shift w1 w2 w3 cal_loader <> Ok shifts.
Proof.
  intros Hempty.
  assert (E : calibrate_shift w1 w2 w3 cal_loader
              = Raise (match cal_loader with
                       | [] => ValueError
                       | _ => RuntimeError
                       end)).
  { destruct cal_loader as [| acts loader]; [reflexivity |].
    simpl in Hempty. apply app_eq_nil in Hempty. destruct Hempty as [-> _].
    reflexivity. }
  split; [exact E |]. intros shifts. rewrite E. discriminate.
Qed.

Lemma calibrate_shift_empty_witness :
  calibrate_shift [[1; -1]] [[1]] [[1]] [] = Raise ValueError
  /\ calibrate_shift [[1; -1]] [[1]] [[1]] [[]; []] = Raise RuntimeError.
Proof.
  split.
  - apply (calibrate_shift_empty [[1; -1]] [[1]] [[1]] []). reflexivity.
  - apply (calibrate_shift_empty [[1; -1]] [[1]] [[1]] [[]; []]). reflexivity.
Defined.

(** ** Order of the calibration samples *)

(** What a pass folds over the samples: the largest [np.abs] of a sample's
    accumulators. *)
Lemma track_max_assoc (f : list Z -> res (list Z)) (a : list Z) (max_acc : Z) :
  (acc ← f a; track_max max_acc acc)
  = (m ← (acc ← f a; np_max (np_abs <$> acc)); mret (Z.max max_acc m)).
Proof. destruct (f a); reflexivity. Qed.

Lemma matmul32_error (w : list (list Z)) (a : list Z) (e : exn) :
  matmul32 w a = Raise e -> e = ValueError.
Proof. unfold matmul32. destruct (forallb _ w); congruence. Qed.

Lemma np_max_error (l : list Z) (e : exn) :
  np_max l = Raise e -> e = ValueError.
Proof. destruct l; simpl; congruence. Qed.

(** A running maximum does not depend on the order of the samples, provided
    the samples can fail with one exception only. *)
Lemma for_each_max_perm (g : list Z -> res Z) (l l' : list (list Z)) :
  (forall a e, g a = Raise e -> e = ValueError) ->
  l ≡ₚ l' ->
  forall init,
    for_each l (fun a max_acc => m ← g a; mret (Z.max max_acc m)) init
    = for_each l' (fun a max_acc => m ← g a; mret (Z.max max_acc m)) init.
Proof.
  intros Hg Hperm. induction Hperm as [| a l l' _ IH | a b l | l l' l'' _ IH1 _ IH2];
    intros init.
  - reflexivity.
  - simpl. destruct (g a); simpl; [apply IH | reflexivity].
  - simpl. destruct (g a) as [ma | ea] eqn:Ea, (g b) as [mb | eb] eqn:Eb; simpl.
    + rewrite <- !Z.max_assoc, (Z.max_comm ma mb). reflexivity.
    + reflexivity.
    + reflexivity.
    + rewrite (Hg _ _ Ea), (Hg _ _ Eb). reflexivity.
  - rewrite IH1. apply IH2.
Qed.

Lemma calibration_pass_perm (f : list Z -> res (list Z)) (l l' : list (list Z)) :
  (forall a e, f a = Raise e -> e = ValueError) ->
  l ≡ₚ l' -> calibration_pass f l = calibration_pass f l'.
Proof.
  intros Hf Hperm. unfold calibration_pass.
  assert (Hbody : forall l0 init,
             for_each l0 (fun a max_acc => acc ← f a; track_max max_acc acc) init
             = for_each l0
                 (fun a max_acc =>
                    m ← (acc ← f a; np_max (np_abs <$> acc));
                    mret (Z.max max_acc m)) init).
  { induction l0 as [| a l0 IH]; intros init; [reflexivity |].
    simpl. rewrite track_max_assoc.
    destruct (acc ← f a; np_max (np_abs <$> acc)); simpl;
      [apply IH | reflexivity]. }
  rewrite !Hbody.
  apply (for_each_max_perm (fun a => acc ← f a; np_max (np_abs <$> acc)));
    [| exact Hperm].
  intros a e. destruct (f a) as [acc | e'] eqn:Ef; simpl.
  - apply np_max_error.
  - intros [= <-]. eapply Hf, Ef.
Qed.

Lemma acc_layer1_error (w1 : list (list Z)) (a : list Z) (e : exn) :
  acc_layer1 w1 a = Raise e -> e = ValueError.
Proof. apply matmul32_error. Qed.

Lemma acc_layer2_error (w1 : list (list Z)) (s1 : Z) (w2 : list (list Z))
  (a : list Z) (e : exn) :
  acc_layer2 w1 s1 w2 a = Raise e -> e = ValueError.
Proof.
  unfold acc_layer2. destruct (matmul32 w1 a) as [acc1 | e1] eqn:E1; simpl.
  - apply matmul32_error.
  - intros [= <-]. eapply matmul32_error, E1.
Qed.

Lemma acc_layer3_error (w1 : list (list Z)) (s1 : Z) (w2 : list (list Z))
  (s2 : Z) (w3 : list (list Z)) (a : list Z) (e : exn) :
  acc_layer3 w1 s1 w2 s2 w3 a = Raise e -> e = ValueError.
Proof.
  unfold acc_layer3. destruct (matmul32 w1 a) as [acc1 | e1] eqn:E1; simpl.
  - destruct (matmul32 w2 _) as [acc2 | e2] eqn:E2; simpl.
    + apply matmul32_error.
    + intros [= <-]. eapply matmul32_error, E2.
  - intros [= <-]. eapply matmul32_error, E1.
Qed.

(** The loader: batches that are arrays are all collected. *)
Lemma for_each_collect_Ok (loader all_acts : list (list (list Z))) :
  Forall is_array2 loader ->
  for_each loader
    (fun acts all_acts =>
       match acts with
       | [] => Raise RuntimeError
       | _ => Ok (all_acts ++ [acts])
       end) all_acts = Ok (all_acts ++ loader).
Proof.
  intros Hloader. revert all_acts.
  induction Hloader as [| acts loader [Hne _] _ IH]; intros all_acts.
  - rewrite app_nil_r. reflexivity.
  - simpl. destruct acts as [| a acts]; [congruence |]. simpl.
    rewrite IH, <- app_assoc. reflexivity.
Qed.

Lemma is_array2_rows (arr : list (list Z)) (d : nat) :
  is_array2 arr ->
  (Forall (fun row => length row = d) arr <-> width arr = d).
Proof.
  intros [Hne Hrect]. destruct arr as [| r arr]; [congruence |]. split.
  - intros Hd. apply List.Forall_inv in Hd. exact Hd.
  - intros <-. exact Hrect.
Qed.

(** On arrays, the width test of [np.concatenate] says that all rows of all
    batches have one length. *)
Lemma widths_agree (arr : list (list Z)) (arrs : list (list (list Z))) :
  Forall is_array2 (arr :: arrs) ->
  forallb (fun arr' => (width arr' =? width arr)%nat) arrs = true
  <-> exists d, Forall (fun row => length row = d) (concat (arr :: arrs)).
Proof.
  intros Harrs. apply List.Forall_cons_iff in Harrs. destruct Harrs as [Harr Harrs].
  rewrite forallb_forall. split.
  - intros Hw. exists (width arr). simpl. apply Forall_app. split.
    + apply is_array2_rows; [exact Harr | reflexivity].
    + apply Forall_concat. rewrite List.Forall_forall in Harrs |- *.
      intros arr' Harr'. apply is_array2_rows; [apply Harrs, Harr' |].
      apply Nat.eqb_eq, Hw, Harr'.
  - intros [d Hd] arr' Harr'. simpl in Hd. apply Forall_app in Hd.
    destruct Hd as [Hd Hds]. apply Nat.eqb_eq.
    apply (is_array2_rows _ d Harr) in Hd. rewrite Hd.
    rewrite List.Forall_forall in Harrs.
    apply (is_array2_rows _ d (Harrs arr' Harr')).
    rewrite Forall_concat in Hds. rewrite List.Forall_forall in Hds.
    apply Hds, Harr'.
Qed.

Lemma collect_int8_inputs_arrays (loader : list (list (list Z))) :
  Forall is_array2 loader ->
  (concat loader <> []
   /\ (exists d, Forall (fun row => length row = d) (concat loader))
   /\ collect_int8_inputs loader = Ok (concat loader))
  \/ ((concat loader = []
       \/ ~ exists d, Forall (fun row => length row = d) (concat loader))
      /\ collect_int8_inputs loader = Raise ValueError).
Proof.
  intros Hloader. unfold collect_int8_inputs.
  rewrite (for_each_collect_Ok loader [] Hloader). simpl.
  destruct loader as [| arr arrs]; [right; split; [left |]; reflexivity |].
  pose proof (widths_agree arr arrs Hloader) as Hw. simpl.
  destruct (forallb _ arrs).
  - left. split; [| split; [apply Hw |]; reflexivity].
    apply List.Forall_inv in Hloader. destruct Hloader as [Hne _].
    destruct arr; [congruence | discriminate].
  - right. split; [| reflexivity]. right. intros Hd. apply Hw in Hd. discriminate.
Qed.

(** C7. Calibration determinism under reordering: two loaders whose batches
    are arrays and whose samples are a permutation of each other give, with
    the same weights, the same result of [calibrate_shift]: the same three
    shifts, or the same exception. *)
Theorem calibrate_shift_permutation (w1 w2 w3 : list (list Z))
  (loader loader' : list (list (list Z))) :
  Forall is_array2 loader -> Forall is_array2 loader' ->
  concat loader ≡ₚ concat loader' ->
  calibrate_shift w1 w2 w3 loader = calibrate_shift w1 w2 w3 loader'.
Proof.
  intros Hl Hl' Hperm. unfold calibrate_shift.
  destruct (collect_int8_inputs_arrays loader Hl) as [(Hne & Hd & ->) | [Hbad ->]],
    (collect_int8_inputs_arrays loader' Hl') as [(Hne' & Hd' & ->) | [Hbad' ->]];
    simpl.
  - rewrite (calibration_pass_perm _ _ _ (acc_layer1_error w1) Hperm).
    destruct (calibration_pass (acc_layer1 w1) (concat loader'));
      simpl; [| reflexivity].
    rewrite (calibration_pass_perm _ _ _ (acc_layer2_error w1 _ w2) Hperm).
    destruct (calibration_pass (acc_layer2 w1 _ w2) (concat loader'));
      simpl; [| reflexivity].
    rewrite (calibration_pass_perm _ _ _ (acc_layer3_error w1 _ w2 _ w3) Hperm).
    reflexivity.
  - exfalso. destruct Hbad' as [Hnil | Hnd].
    + rewrite Hnil in Hperm. apply Permutation_nil_r in Hperm. congruence.
    + apply Hnd. destruct Hd as [d Hd]. exists d. rewrite <- Hperm. exact Hd.
  - exfalso. destruct Hbad as [Hnil | Hnd].
    + rewrite Hnil in Hperm. apply Permutation_nil_l in Hperm. congruence.
    + apply Hnd. destruct Hd' as [d Hd']. exists d. rewrite Hperm. exact Hd'.
  - reflexivity.
Qed.

Lemma calibrate_shift_permutation_witness :
  calibrate_shift small_w1 small_w2 small_w3 small_loader
  = calibrate_shift small_w1 small_w2 small_w3 small_loader_reordered.
Proof.
  apply calibrate_shift_permutation.
  - repeat (apply List.Forall_cons;
            [split; [discriminate |];
             repeat (apply List.Forall_cons; [reflexivity |]);
             apply List.Forall_nil |]).
    apply List.Forall_nil.
  - repeat (apply List.Forall_cons;
            [split; [discriminate |];
             repeat (apply List.Forall_cons; [reflexivity |]);
             apply List.Forall_nil |]).
    apply List.Forall_nil.
  - simpl. rewrite (Permutation_swap [100; 27; 5] [127; 127; 127]).
    rewrite (Permutation_swap [100; 27; 5] [0; 64; 127]).
    rewrite (Permutation_swap [127; 127; 127] [0; 64; 127]).
    reflexivity.
Defined.

(** ** Calibration succeeds on well-shaped inputs *)

Lemma matmul32_shape (w : list (list Z)) (m k : nat) (a : list Z) :
  has_shape w m k -> length a = k ->
  exists acc, matmul32 w a = Ok acc /\ length acc = m.
Proof.
  intros [Hm Hk] Ha. unfold matmul32.
  assert (E : forallb (fun row => (length row =? length a)%nat) w = true).
  { apply forallb_forall. rewrite List.Forall_forall in Hk.
    intros row Hrow. apply Nat.eqb_eq. rewrite Ha. apply Hk, Hrow. }
  rewrite E. eexists. split; [reflexivity |]. rewrite length_fmap. exact Hm.
Qed.

Lemma length_relu_rescale (acc : list Z) (s : Z) :
  length (relu_rescale acc s) = length acc.
Proof. unfold relu_rescale. apply length_fmap. Qed.

Lemma calibration_pass_Ok (f : list Z -> res (list Z)) (l : list (list Z)) :
  Forall (fun a => exists acc, f a = Ok acc /\ acc <> []) l ->
  exists M, calibration_pass f l = Ok M.
Proof.
  unfold calibration_pass. intros Hl. generalize 0.
  induction Hl as [| a l (acc & Hacc & Hne) _ IH]; intros init.
  - exists init. reflexivity.
  - simpl. rewrite Hacc. simpl. unfold track_max.
    destruct acc as [| x acc]; [congruence |]. simpl. apply IH.
Qed.

(** With weights of chained shapes, none without rows, and a loader of at
    least one batch whose batches are arrays of the input width,
    [calibrate_shift] raises no exception. *)
Lemma calibrate_shift_Ok (w1 w2 w3 : list (list Z))
  (cal_loader : list (list (list Z))) (m1 m2 m3 k : nat) :
  has_shape w1 m1 k -> has_shape w2 m2 m1 -> has_shape w3 m3 m2 ->
  (0 < m1)%nat -> (0 < m2)%nat -> (0 < m3)%nat ->
  cal_loader <> [] ->
  Forall (fun acts => is_array2 acts /\ width acts = k) cal_loader ->
  exists shifts, calibrate_shift w1 w2 w3 cal_loader = Ok shifts.
Proof.
  intros Hw1 Hw2 Hw3 Hm1 Hm2 Hm3 Hne Hloader.
  assert (Harrays : Forall is_array2 cal_loader)
    by (eapply List.Forall_impl; [| exact Hloader]; intros acts [H _]; exact H).
  assert (Hrows : Forall (fun a => length a = k) (concat cal_loader)).
  { apply Forall_concat. eapply List.Forall_impl; [| exact Hloader].
    intros acts [[_ Hrect] Hwidth]. rewrite <- Hwidth. exact Hrect. }
  unfold calibrate_shift.
  destruct (collect_int8_inputs_arrays cal_loader Harrays)
    as [(_ & _ & ->) | [[Hnil | Hnd] _]].
  - simpl.
    destruct (calibration_pass_Ok (acc_layer1 w1) (concat cal_loader))
      as [max_acc1 ->].
    { eapply List.Forall_impl; [| exact Hrows]. intros a Ha.
      destruct (matmul32_shape w1 m1 k a Hw1 Ha) as (acc1 & Hacc1 & Hlen1).
      exists acc1. split; [exact Hacc1 |]. intros ->. simpl in Hlen1. lia. }
    simpl.
    destruct (calibration_pass_Ok
                (acc_layer2 w1 (find_shift_for_max max_acc1) w2)
                (concat cal_loader)) as [max_acc2 ->].
    { eapply List.Forall_impl; [| exact Hrows]. intros a Ha.
      destruct (matmul32_shape w1 m1 k a Hw1 Ha) as (acc1 & Hacc1 & Hlen1).
      destruct (matmul32_shape w2 m2 m1
                  (relu_rescale acc1 (find_shift_for_max max_acc1)) Hw2)
        as (acc2 & Hacc2 & Hlen2);
        [rewrite length_relu_rescale; exact Hlen1 |].
      exists acc2. unfold acc_layer2. rewrite Hacc1. simpl.
      split; [exact Hacc2 |]. intros ->. simpl in Hlen2. lia. }
    simpl.
    destruct (calibration_pass_Ok
                (acc_layer3 w1 (find_shift_for_max max_acc1) w2
                   (find_shift_for_max max_acc2) w3)
                (concat cal_loader)) as [max_acc3 ->].
    { eapply List.Forall_impl; [| exact Hrows]. intros a Ha.
      destruct (matmul32_shape w1 m1 k a Hw1 Ha) as (acc1 & Hacc1 & Hlen1).
      destruct (matmul32_shape w2 m2 m1
                  (relu_rescale acc1 (find_shift_for_max max_acc1)) Hw2)
        as (acc2 & Hacc2 & Hlen2);
        [rewrite length_relu_rescale; exact Hlen1 |].
      destruct (matmul32_shape w3 m3 m2
                  (relu_rescale acc2 (find_shift_for_max max_acc2)) Hw3)
        as (acc3 & Hacc3 & Hlen3);
        [rewrite length_relu_rescale; exact Hlen2 |].
      exists acc3. unfold acc_layer3. rewrite Hacc1. simpl.
      rewrite Hacc2. simpl.
      split; [exact Hacc3 |]. intros ->. simpl in Hlen3. lia. }
    simpl. eexists. reflexivity.
  - exfalso. destruct cal_loader as [| acts loader]; [congruence |].
    apply List.Forall_inv in Harrays. destruct Harrays as [Hacts _].
    simpl in Hnil. apply app_eq_nil in Hnil. destruct Hnil as [-> _].
    congruence.
  - exfalso. apply Hnd. exists k. exact Hrows.
Qed.

(** ** Prediction *)

(** [argmax_from] continues a scan of [pre] whose best entry so far is [best]
    at [best_i], the first position of the largest value of [pre]. *)
Lemma argmax_from_spec (l pre : list Z) (best_i : nat) (best : Z) :
  pre !! best_i = Some best ->
  (forall j x, pre !! j = Some x -> x <= best) ->
  (forall j x, (j < best_i)%nat -> pre !! j = Some x -> x < best) ->
  exists v,
    (pre ++ l) !! argmax_from best_i best (length pre) l = Some v
    /\ (forall j x, (pre ++ l) !! j = Some x -> x <= v)
    /\ (forall j x, (j < argmax_from best_i best (length pre) l)%nat ->
                    (pre ++ l) !! j = Some x -> x < v).
Proof.
  revert pre best_i best.
  induction l as [| y l IH]; intros pre best_i best Hbest Hmax Hfirst.
  - simpl. rewrite app_nil_r. eauto.
  - simpl. rewrite (cons_middle y pre l), app_assoc.
    replace (S (length pre)) with (length (pre ++ [y]))
      by (rewrite length_app; simpl; lia).
    destruct (Z.gtb_spec y best) as [Hgt | Hle]; apply IH.
    + rewrite lookup_app_r, Nat.sub_diag by lia. reflexivity.
    + intros j x Hj. apply lookup_app_Some in Hj.
      destruct Hj as [Hj | [_ Hj]].
      * specialize (Hmax j x Hj). lia.
      * apply list_lookup_singleton_Some in Hj. lia.
    + intros j x Hlt Hj. rewrite lookup_app_l in Hj by exact Hlt.
      specialize (Hmax j x Hj). lia.
    + rewrite lookup_app_l by (eapply lookup_lt_Some, Hbest). exact Hbest.
    + intros j x Hj. apply lookup_app_Some in Hj.
      destruct Hj as [Hj | [_ Hj]].
      * exact (Hmax j x Hj).
      * apply list_lookup_singleton_Some in Hj. lia.
    + intros j x Hlt Hj.
      rewrite lookup_app_l in Hj
        by (apply lookup_lt_Some in Hbest; lia).
      exact (Hfirst j x Hlt Hj).
Qed.

(** [np.argmax] returns the first position of the largest value. *)
Lemma np_argmax_spec (l : list Z) (p : nat) :
  np_argmax l = Ok p ->
  exists v,
    l !! p = Some v
    /\ (forall j x, l !! j = Some x -> x <= v)
    /\ (forall j x, (j < p)%nat -> l !! j = Some x -> x < v).
Proof.
  destruct l as [| y l]; [discriminate |]. intros [= <-].
  apply (argmax_from_spec l [y] 0 y).
  - reflexivity.
  - intros j x Hj. apply list_lookup_singleton_Some in Hj. lia.
  - intros j x Hlt. lia.
Qed.

Lemma np_argmax_nonempty (l : list Z) :
  l <> [] -> exists p, np_argmax l = Ok p.
Proof. destruct l; [congruence | simpl; eauto]. Qed.

(** Under a monotone rescaling the arg-max can only move to an earlier
    position, one that ties with the raw arg-max after the rescaling. *)
Lemma np_argmax_monotone (f : Z -> Z) (l : list Z) (p r : nat) :
  (forall x y, x <= y -> f x <= f y) ->
  np_argmax (f <$> l) = Ok p -> np_argmax l = Ok r ->
  (p <= r)%nat /\ (f <$> l) !! p = (f <$> l) !! r.
Proof.
  intros Hf Hp Hr.
  apply np_argmax_spec in Hp. destruct Hp as (vp & Hvp & Hpmax & Hpfirst).
  apply np_argmax_spec in Hr. destruct Hr as (vr & Hvr & Hrmax & _).
  assert (Hfr : (f <$> l) !! r = Some (f vr))
    by (rewrite list_lookup_fmap, Hvr; reflexivity).
  rewrite list_lookup_fmap in Hvp.
  destruct (l !! p) as [xp |] eqn:Hxp; [| discriminate].
  injection Hvp as <-.
  assert (Hle : f vr <= f xp) by exact (Hpmax r (f vr) Hfr).
  assert (Hge : f xp <= f vr) by (apply Hf; exact (Hrmax p xp Hxp)).
  split.
  - destruct (le_lt_dec p r) as [| Hlt]; [assumption |].
    specialize (Hpfirst r (f vr) Hlt Hfr). lia.
  - rewrite Hfr, list_lookup_fmap, Hxp. simpl. f_equal. lia.
Qed.

Lemma rescale_monotone (s x y : Z) :
  0 <= s -> x <= y ->
  astype_int8 (clip (-128) 127 (Z.shiftr x s))
  <= astype_int8 (clip (-128) 127 (Z.shiftr y s)).
Proof.
  intros Hs Hxy. unfold clip.
  rewrite !astype_int8_id by (unfold is_int8; lia).
  assert (Z.shiftr x s <= Z.shiftr y s); [| lia].
  rewrite !Z.shiftr_div_pow2 by assumption.
  apply Z.div_le_mono; [apply Z.pow_pos_nonneg; lia | assumption].
Qed.

(** The counters after a test set of one labelled image. *)
Lemma verify_int8_inference_single (w1 w2 w3 : list (list Z))
  (shifts a : list Z) (target : Z) (pred : nat) :
  predict w1 w2 w3 shifts a = Ok pred ->
  verify_int8_inference w1 w2 w3 [([a], [target])] shifts
  = Ok (if Z.of_nat pred =? target then (1%nat, 1%nat) else (0%nat, 1%nat)).
Proof.
  intros Hpred. unfold verify_int8_inference, for_range. simpl.
  rewrite Hpred. simpl. destruct (Z.of_nat pred =? target); reflexivity.
Qed.

(** The prediction and the arg-max of the raw accumulator differ on an image
    and ternary weights of the shapes of the model, with the shifts
    [1; 1; 1] that calibration on this image returns: the accumulators 94 and
    95 of the classes 0 and 1 are both rescaled to 47, so that the image,
    labelled 1, is counted as wrong. *)
Lemma predict_not_raw_argmax :
  calibrate_shift mnist_w1 mnist_w2 mnist_w3 [[mnist_image]] = Ok [1; 1; 1]
  /\ final_accumulator mnist_w1 mnist_w2 mnist_w3 [1; 1; 1] mnist_image
     = Ok [94; 95; -158; 0; 0; 0; 0; 0; 0; 0]
  /\ np_argmax [94; 95; -158; 0; 0; 0; 0; 0; 0; 0] = Ok 1%nat
  /\ predict mnist_w1 mnist_w2 mnist_w3 [1; 1; 1] mnist_image = Ok 0%nat
  /\ verify_int8_inference mnist_w1 mnist_w2 mnist_w3
       [([mnist_image], [1])] [1; 1; 1] = Ok (0%nat, 1%nat).
Proof.
  assert (E : final_accumulator mnist_w1 mnist_w2 mnist_w3 [1; 1; 1] mnist_image
              = Ok [94; 95; -158; 0; 0; 0; 0; 0; 0; 0])
    by (vm_compute; reflexivity).
  assert (Hpred : predict mnist_w1 mnist_w2 mnist_w3 [1; 1; 1] mnist_image
                  = Ok 0%nat)
    by (unfold predict; rewrite E; reflexivity).
  split; [vm_compute; reflexivity |]. split; [exact E |].
  split; [reflexivity |]. split; [exact Hpred |].
  exact (verify_int8_inference_single _ _ _ _ _ 1 _ Hpred).
Qed.

(** C5 (amended). Final-layer prediction: the predicted class is the arg-max
    of the final layer's accumulators after the arithmetic right shift by
    [shifts[2]] and the clamp to [-128, 127], with no rectification.  It is
    the raw arg-max or an earlier class that ties with it after the shift
    and clamp. *)
Theorem predict_argmax_rescaled (w1 w2 w3 : list (list Z)) (shifts : list Z)
  (a acc3 : list Z) (s : Z) (r : nat) :
  final_accumulator w1 w2 w3 shifts a = Ok acc3 ->
  shifts !! 2%nat = Some s -> 0 <= s ->
  np_argmax acc3 = Ok r ->
  exists p,
    predict w1 w2 w3 shifts a = Ok p
    /\ np_argmax ((fun x => clip (-128) 127 (Z.shiftr x s)) <$> acc3) = Ok p
    /\ (p <= r)%nat
    /\ rescale acc3 s !! p = rescale acc3 s !! r.
Proof.
  intros Hacc Hs Hpos Hr.
  assert (Hne : rescale acc3 s <> []).
  { destruct acc3; [discriminate | discriminate]. }
  destruct (np_argmax_nonempty _ Hne) as [p Hp].
  exists p.
  assert (Hpred : predict w1 w2 w3 shifts a = Ok p).
  { unfold predict. rewrite Hacc. simpl. unfold index. rewrite Hs. exact Hp. }
  split; [exact Hpred |]. split.
  - rewrite <- Hp. unfold rescale. f_equal. apply list_fmap_ext.
    intros i x _. unfold clip. apply eq_sym, astype_int8_id.
    unfold is_int8. lia.
  - apply (np_argmax_monotone _ acc3 p r); [| exact Hp | exact Hr].
    intros x y Hxy. apply rescale_monotone; assumption.
Qed.

Lemma predict_argmax_rescaled_witness :
  exists p,
    predict small_w1 small_w2 small_w3 [2; 1; 1] [127; 127; 127] = Ok p
    /\ np_argmax ((fun x => clip (-128) 127 (Z.shiftr x 1)) <$> [158; -158])
       = Ok p
    /\ (p <= 0)%nat
    /\ rescale [158; -158] 1 !! p = rescale [158; -158] 1 !! 0%nat.
Proof.
  apply (predict_argmax_rescaled small_w1 small_w2 small_w3 [2; 1; 1]
           [127; 127; 127] [158; -158] 1 0).
  - vm_compute. reflexivity.
  - reflexivity.
  - lia.
  - vm_compute. reflexivity.
Defined.

(** ** Packed words *)

Lemma field_0 (p : nat) : field 0 p = 0.
Proof. unfold field. rewrite Z.shiftr_0_l. reflexivity. Qed.

Lemma field_lor (x y : Z) (p : nat) :
  field (Z.lor x y) p = Z.lor (field x p) (field y p).
Proof. unfold field. rewrite Z.shiftr_lor, Z.land_lor_distr_l. reflexivity. Qed.

Lemma land_3_mod (x : Z) : Z.land x 3 = x mod 4.
Proof. change 3 with (Z.ones 2). rewrite Z.land_ones by lia. reflexivity. Qed.

(** A 2-bit code written at position [q] is read back at [q] and leaves the
    other positions empty. *)
Lemma field_shiftl (e : Z) (p q : nat) :
  0 <= e < 4 ->
  field (Z.shiftl e (Z.of_nat (q * 2))) p = if decide (p = q) then e else 0.
Proof.
  intros He. unfold field. rewrite land_3_mod.
  destruct (decide (p = q)) as [-> | Hne].
  - rewrite Z.shiftr_shiftl_l, Z.sub_diag, Z.shiftl_0_r by lia.
    apply Z.mod_small. lia.
  - destruct (le_lt_dec p q) as [Hle | Hlt].
    + rewrite Z.shiftr_shiftl_l by lia.
      rewrite Z.shiftl_mul_pow2 by lia.
      replace (Z.of_nat (q * 2) - Z.of_nat (p * 2))
        with (2 + Z.of_nat ((q - p - 1) * 2)) by lia.
      rewrite Z.pow_add_r by lia. change (2 ^ 2) with 4.
      rewrite Z.mul_assoc, (Z.mul_comm e 4), <- Z.mul_assoc, Z.mul_comm.
      apply Z.mod_mul. lia.
    + rewrite Z.shiftr_shiftl_r by lia.
      rewrite Z.shiftr_div_pow2 by lia.
      replace (Z.of_nat (p * 2) - Z.of_nat (q * 2))
        with (2 + Z.of_nat ((p - q - 1) * 2)) by lia.
      rewrite Z.pow_add_r by lia. change (2 ^ 2) with 4.
      rewrite <- Z.div_div by (try apply Z.pow_pos_nonneg; lia).
      rewrite (Z.div_small e 4) by lia. reflexivity.
Qed.

Lemma encode_range (val : Z) : encode val = 0 \/ encode val = 1 \/ encode val = 2.
Proof.
  unfold encode. destruct (val =? 1); [tauto |]. destruct (val =? -1); tauto.
Qed.

Lemma decode_encode (val : Z) : is_ternary val -> decode (encode val) = Some val.
Proof. intros [-> | [-> | ->]]; reflexivity. Qed.

Lemma lor_word_bound (x y : Z) :
  0 <= x < 4294967296 -> 0 <= y < 4294967296 ->
  0 <= Z.lor x y < 4294967296.
Proof.
  intros Hx Hy. split; [apply Z.lor_nonneg; lia |].
  destruct (decide (Z.lor x y = 0)) as [-> | Hne]; [lia |].
  change 4294967296 with (2 ^ 32) in *.
  assert (0 < Z.lor x y) by (pose proof (Z.lor_nonneg x y); lia).
  apply Z.log2_lt_pow2; [assumption |].
  rewrite Z.log2_lor by lia.
  destruct (decide (x = 0)) as [-> | Hx0], (decide (y = 0)) as [-> | Hy0];
    try (rewrite Z.lor_0_l in *); try (rewrite Z.lor_0_r in *);
    try congruence.
  - apply Z.max_lub_lt; [simpl; lia | apply Z.log2_lt_pow2; lia].
  - apply Z.max_lub_lt; [apply Z.log2_lt_pow2; lia | simpl; lia].
  - apply Z.max_lub_lt; apply Z.log2_lt_pow2; lia.
Qed.

Lemma code_word_bound (e : Z) (q : nat) :
  0 <= e <= 2 -> (q < 16)%nat ->
  0 <= Z.shiftl e (Z.of_nat (q * 2)) < 4294967296.
Proof.
  intros He Hq. rewrite Z.shiftl_mul_pow2 by lia.
  assert (0 < 2 ^ Z.of_nat (q * 2) <= 2 ^ 30).
  { split; [apply Z.pow_pos_nonneg; lia |].
    apply Z.pow_le_mono_r; lia. }
  change (2 ^ 30) with 1073741824 in *. nia.
Qed.

(** ** Loops *)

(** Induction over a [for i in range(n)] loop that raises no exception. *)
Lemma for_range_invariant {S : Type} (I : nat -> S -> Prop)
  (body : nat -> S -> res S) (n : nat) (s : S) :
  I 0%nat s ->
  (forall i s, (i < n)%nat -> I i s ->
               exists s', body i s = Ok s' /\ I (Datatypes.S i) s') ->
  exists s', for_range n body s = Ok s' /\ I n s'.
Proof.
  intros Hinit Hstep. unfold for_range.
  assert (Hgen : forall len start s0,
             (start + len = n)%nat -> I start s0 ->
             exists s', for_each (seq start len) body s0 = Ok s' /\ I n s').
  { induction len as [| len IH]; intros start s0 Hlen Hs0.
    - simpl. exists s0. replace n with start by lia. split; [reflexivity | exact Hs0].
    - simpl. destruct (Hstep start s0 ltac:(lia) Hs0) as (s1 & -> & Hs1).
      simpl. apply IH; [lia | exact Hs1]. }
  apply Hgen; [lia | exact Hinit].
Qed.

Lemma index2_entry (w : list (list Z)) (m k row col : nat) :
  has_shape w m k -> (row < m)%nat -> (col < k)%nat ->
  index2 w row col = Ok (entry w k row col).
Proof.
  intros [Hm Hk] Hrow Hcol. unfold index2, index, entry.
  destruct (w !! row) as [r |] eqn:Er.
  - simpl. rewrite List.Forall_forall in Hk.
    assert (Hr : length r = k).
    { apply Hk. apply list_elem_of_In. eapply list_elem_of_lookup_2, Er. }
    destruct (lookup_lt_is_Some_2 r col ltac:(lia)) as [v Ev].
    rewrite Ev. simpl.
    destruct (Nat.ltb_spec col k); [reflexivity | lia].
  - apply lookup_ge_None in Er. lia.
Qed.

(** ** Tiles *)

Lemma ltb_succ_other (a i : nat) :
  a <> i -> (a <? Datatypes.S i)%nat = (a <? i)%nat.
Proof.
  intros Hne. destruct (Nat.ltb_spec a (Datatypes.S i)), (Nat.ltb_spec a i);
    try reflexivity; lia.
Qed.

Lemma tile_holds_init (w : list (list Z)) (k row tile : nat) :
  tile_holds w k row tile 0 [0; 0; 0; 0; 0; 0; 0; 0].
Proof.
  split; [reflexivity |]. intros j Hj. exists 0.
  split; [| split; [lia |]].
  - do 8 (destruct j as [| j]; [reflexivity |]). lia.
  - intros p _. rewrite field_0.
    destruct (Nat.ltb_spec (16 * j + p) 0); [lia | reflexivity].
Qed.

(** One execution of the body of the loop over the positions of a tile. *)
Lemma tile_holds_step (w : list (list Z)) (k row tile i : nat)
  (packed : list Z) :
  (i < 128)%nat -> tile_holds w k row tile i packed ->
  tile_holds w k row tile (Datatypes.S i)
    (alter (fun word =>
              Z.lor word
                (Z.shiftl (encode (entry w k row (tile * 128 + i)))
                          (Z.of_nat ((i mod 16) * 2))))
           (i / 16)%nat packed).
Proof.
  intros Hi [Hlen Hwords].
  pose proof (Nat.div_mod_eq i 16) as Hdm.
  pose proof (Nat.mod_upper_bound i 16 ltac:(lia)) as Hmod.
  split; [rewrite length_alter; exact Hlen |].
  intros j Hj. destruct (Hwords j Hj) as (word & Hword & Hbound & Hfields).
  destruct (decide (j = (i / 16)%nat)) as [-> | Hne].
  - eexists. split; [rewrite list_lookup_alter_eq, Hword; reflexivity |].
    split.
    + apply lor_word_bound; [exact Hbound |].
      apply code_word_bound; [| exact Hmod].
      destruct (encode_range (entry w k row (tile * 128 + i))) as [-> | [-> | ->]];
        lia.
    + intros p Hp. rewrite field_lor, field_shiftl, (Hfields p Hp)
        by (destruct (encode_range (entry w k row (tile * 128 + i)))
              as [-> | [-> | ->]]; lia).
      destruct (decide (p = (i mod 16)%nat)) as [-> | Hpne].
      * replace (16 * (i / 16) + i mod 16)%nat with i by lia.
        destruct (Nat.ltb_spec i i); [lia |].
        destruct (Nat.ltb_spec i (Datatypes.S i)); [| lia].
        reflexivity.
      * rewrite Z.lor_0_r, ltb_succ_other by lia. reflexivity.
  - exists word. split; [rewrite list_lookup_alter_ne by congruence; exact Hword |].
    split; [exact Hbound |].
    intros p Hp. rewrite (Hfields p Hp), ltb_succ_other; [reflexivity |].
    intros E. apply Hne. subst i.
    rewrite Nat.mul_comm, Nat.div_add_l, (Nat.div_small p 16) by lia. lia.
Qed.

(** On an array of the declared shape the packing of a tile raises no
    exception and returns the 8 words holding the codes of its 128
    positions. *)
Lemma pack_tile_Ok (w : list (list Z)) (m k row tile : nat) :
  has_shape w m k -> (row < m)%nat ->
  exists packed,
    pack_tile w k row tile = Ok packed /\ tile_holds w k row tile 128 packed.
Proof.
  intros Hshape Hrow. unfold pack_tile.
  apply (for_range_invariant (tile_holds w k row tile)).
  - apply tile_holds_init.
  - intros i packed Hi Hpacked. eexists. split; [| apply tile_holds_step; eassumption].
    assert (Hval : (if (tile * 128 + i <? k)%nat
                    then index2 w row (tile * 128 + i)
                    else Ok 0)
                   = Ok (entry w k row (tile * 128 + i))).
    { destruct (Nat.ltb_spec (tile * 128 + i) k) as [Hlt | Hge].
      - apply (index2_entry w m k); assumption.
      - unfold entry. destruct (Nat.ltb_spec (tile * 128 + i) k); [lia |].
        reflexivity. }
    rewrite Hval. reflexivity.
Qed.

(** ** The word list *)

(** A loop that appends one block per iteration builds the concatenation of
    the blocks. *)
Lemma for_range_append (P : nat -> list Z -> Prop) (g : nat -> res (list Z))
  (n : nat) (acc : list Z) :
  (forall i, (i < n)%nat -> exists ys, g i = Ok ys /\ P i ys) ->
  exists blocks,
    for_range n (fun i wl => ys ← g i; mret (wl ++ ys)) acc
    = Ok (acc ++ concat blocks)
    /\ length blocks = n
    /\ forall i, (i < n)%nat -> exists ys, blocks !! i = Some ys /\ P i ys.
Proof.
  intros Hg.
  destruct (for_range_invariant
              (fun i wl => exists blocks,
                   wl = acc ++ concat blocks /\ length blocks = i
                   /\ forall j, (j < i)%nat ->
                                exists ys, blocks !! j = Some ys /\ P j ys)
              (fun i wl => ys ← g i; mret (wl ++ ys)) n acc)
    as (wl & Hwl & blocks & -> & Hlen & Hblocks).
  - exists []. split; [rewrite app_nil_r; reflexivity |].
    split; [reflexivity |]. intros j Hj. lia.
  - intros i wl Hi (blocks & -> & Hlen & Hblocks).
    destruct (Hg i Hi) as (ys & Hys & HP). rewrite Hys. simpl.
    eexists. split; [reflexivity |]. exists (blocks ++ [ys]).
    split; [rewrite concat_app, <- app_assoc; simpl; rewrite app_nil_r; reflexivity |].
    split; [rewrite length_app; simpl; lia |].
    intros j Hj. destruct (decide (j = i)) as [-> | Hne].
    + exists ys. split; [| exact HP].
      rewrite lookup_app_r, Hlen, Nat.sub_diag by lia. reflexivity.
    + destruct (Hblocks j ltac:(lia)) as (zs & Hzs & HPj).
      exists zs. split; [| exact HPj].
      rewrite lookup_app_l by lia. exact Hzs.
  - exists blocks. split; [exact Hwl |]. split; assumption.
Qed.

(** On an array of the declared shape the packer raises no exception: the
    word list is the concatenation of the packed tiles, rows first. *)
Lemma word_list_blocks (w : list (list Z)) (m k : nat) :
  has_shape w m k ->
  exists blocks,
    word_list w k m = Ok (concat (@concat Z <$> blocks))
    /\ blocks_hold w k m blocks.
Proof.
  intros Hshape. unfold word_list.
  destruct (for_range_invariant
              (fun n wl => exists blocks,
                   wl = concat (@concat Z <$> blocks) /\ blocks_hold w k n blocks)
              (fun row wl =>
                 for_range (tiles_per_row k)
                   (fun tile wl =>
                      packed ← pack_tile w k row tile; mret (wl ++ packed))
                   wl)
              m [])
    as (wl & Hwl & blocks & -> & Hblocks).
  - exists []. split; [reflexivity |]. split; [reflexivity |].
    intros row Hrow. lia.
  - intros row wl Hrow (blocks & -> & Hlen & Hblocks).
    destruct (for_range_append (fun tile packed => tile_holds w k row tile 128 packed)
                (pack_tile w k row) (tiles_per_row k)
                (concat (@concat Z <$> blocks)))
      as (tiles & Htiles & Htlen & Hthold).
    { intros tile _. apply (pack_tile_Ok w m k); assumption. }
    eexists. split; [exact Htiles |]. exists (blocks ++ [tiles]).
    split.
    { rewrite fmap_app, concat_app. simpl. rewrite app_nil_r. reflexivity. }
    split; [rewrite length_app; simpl; lia |].
    intros r Hr. destruct (decide (r = row)) as [-> | Hne].
    + exists tiles. rewrite lookup_app_r, Hlen, Nat.sub_diag by lia.
      split; [reflexivity |]. split; assumption.
    + destruct (Hblocks r ltac:(lia)) as (ts & Hts & Hrest).
      exists ts. rewrite lookup_app_l by lia. split; assumption.
  - exists blocks. split; assumption.
Qed.

Lemma concat_mjoin {A : Type} (ls : list (list A)) : concat ls = mjoin ls.
Proof. induction ls as [| l ls IH]; [reflexivity |]. simpl. rewrite IH. reflexivity. Qed.

Lemma length_concat_same {A : Type} (n : nat) (ls : list (list A)) :
  Forall (fun l => length l = n) ls -> length (concat ls) = (length ls * n)%nat.
Proof.
  induction 1 as [| l ls Hl _ IH]; [reflexivity |].
  simpl. rewrite length_app, Hl, IH. reflexivity.
Qed.

Lemma tiles_same_length (w : list (list Z)) (k row : nat)
  (tiles : list (list Z)) :
  length tiles = tiles_per_row k ->
  (forall tile, (tile < tiles_per_row k)%nat ->
                exists packed, tiles !! tile = Some packed
                               /\ tile_holds w k row tile 128 packed) ->
  Forall (fun packed => length packed = 8%nat) tiles.
Proof.
  intros Hlen Htiles. apply Forall_lookup_2. intros tile packed Hpacked.
  destruct (Htiles tile) as (packed' & Hpacked' & Hlen8 & _).
  - apply lookup_lt_Some in Hpacked. lia.
  - congruence.
Qed.

Lemma blocks_same_length (w : list (list Z)) (k m : nat)
  (blocks : list (list (list Z))) :
  blocks_hold w k m blocks ->
  Forall (fun l => length l = (tiles_per_row k * 8)%nat) (@concat Z <$> blocks).
Proof.
  intros [Hlen Hblocks]. apply Forall_fmap, Forall_lookup_2.
  intros row tiles Htiles. simpl.
  destruct (Hblocks row) as (tiles' & Htiles' & Htlen & Hthold).
  - apply lookup_lt_Some in Htiles. lia.
  - assert (tiles' = tiles) as -> by congruence.
    rewrite (length_concat_same 8), Htlen; [reflexivity |].
    eapply tiles_same_length; eassumption.
Qed.

(** The word of index [(row * tiles_per_row + tile) * 8 + j] is word [j] of
    the packed tile [tile] of [row]. *)
Lemma blocks_lookup (w : list (list Z)) (k m : nat)
  (blocks : list (list (list Z))) (row tile j : nat) :
  blocks_hold w k m blocks ->
  (row < m)%nat -> (tile < tiles_per_row k)%nat -> (j < 8)%nat ->
  exists tiles packed word,
    blocks !! row = Some tiles /\ tiles !! tile = Some packed
    /\ packed !! j = Some word
    /\ tile_holds w k row tile 128 packed
    /\ concat (@concat Z <$> blocks) !! ((row * tiles_per_row k + tile) * 8 + j)%nat
       = Some word.
Proof.
  intros Hblocks Hrow Htile Hj.
  pose proof (blocks_same_length w k m blocks Hblocks) as Hsame.
  destruct Hblocks as [Hlen Hblocks].
  destruct (Hblocks row Hrow) as (tiles & Htiles & Htlen & Hthold).
  destruct (Hthold tile Htile) as (packed & Hpacked & Hholds).
  destruct Hholds as [Hlen8 Hwords].
  destruct (Hwords j Hj) as (word & Hword & _).
  exists tiles, packed, word.
  split; [exact Htiles |]. split; [exact Hpacked |]. split; [exact Hword |].
  split; [split; assumption |].
  replace ((row * tiles_per_row k + tile) * 8 + j)%nat
    with (row * (tiles_per_row k * 8) + (tile * 8 + j))%nat by lia.
  rewrite concat_mjoin.
  apply (join_lookup_Some_same_length' (tiles_per_row k * 8));
    [exact Hsame | lia |].
  exists (concat tiles). split; [rewrite list_lookup_fmap, Htiles; reflexivity |].
  rewrite concat_mjoin.
  apply (join_lookup_Some_same_length' 8); [| lia |].
  - eapply tiles_same_length; eassumption.
  - exists packed. split; assumption.
Qed.

(** The 2-bit field read for a column of a row is the code of the value the
    packer wrote there. *)
Lemma packed_field_entry (w : list (list Z)) (m k : nat) (words : list Z)
  (row col : nat) :
  has_shape w m k -> word_list w k m = Ok words ->
  (row < m)%nat -> (col < tiles_per_row k * 128)%nat ->
  packed_field words k row col = Some (encode (entry w k row col)).
Proof.
  intros Hshape Hwords Hrow Hcol.
  destruct (word_list_blocks w m k Hshape) as (blocks & Hblocks & Hhold).
  rewrite Hblocks in Hwords. injection Hwords as <-.
  pose proof (Nat.div_mod_eq col 128) as Hdm.
  pose proof (Nat.mod_upper_bound col 128 ltac:(lia)) as Hmod.
  pose proof (Nat.div_mod_eq (col mod 128) 16) as Hdm'.
  pose proof (Nat.mod_upper_bound (col mod 128) 16 ltac:(lia)) as Hmod'.
  assert (Htile : (col / 128 < tiles_per_row k)%nat)
    by (apply Nat.Div0.div_lt_upper_bound; lia).
  assert (Hj : (col mod 128 / 16 < 8)%nat)
    by (apply Nat.Div0.div_lt_upper_bound; lia).
  destruct (blocks_lookup w k m blocks row (col / 128) (col mod 128 / 16)
              Hhold Hrow Htile Hj)
    as (tiles & packed & word & _ & _ & Hword & [_ Hfields] & Hlookup).
  unfold packed_field. cbv zeta. rewrite Hlookup.
  cbv beta iota delta [mbind option_bind]. f_equal.
  destruct (Hfields _ Hj) as (word' & Hword' & _ & Hfield).
  assert (word' = word) as -> by congruence.
  rewrite (Hfield _ Hmod').
  destruct (Nat.ltb_spec (16 * (col mod 128 / 16) + col mod 128 mod 16) 128);
    [| lia].
  do 2 f_equal. lia.
Qed.

Lemma length_word_list (w : list (list Z)) (m k : nat) (words : list Z) :
  has_shape w m k -> word_list w k m = Ok words ->
  length words = total_words k m.
Proof.
  intros Hshape Hwords.
  destruct (word_list_blocks w m k Hshape) as (blocks & Hblocks & Hhold).
  rewrite Hblocks in Hwords. injection Hwords as <-.
  rewrite (length_concat_same (tiles_per_row k * 8))
    by (eapply blocks_same_length, Hhold).
  rewrite length_fmap. destruct Hhold as [-> _]. unfold total_words. lia.
Qed.

(** C9. The packer never emits the reserved bit pattern: for an [m] x [k]
    matrix the packer returns [m * tiles_per_row * 8] words of 32 bits, and
    each of the 16 2-bit fields of each word is 00, 01 or 10, never 11. *)
Theorem packed_fields_never_11 (w : list (list Z)) (m k : nat) :
  has_shape w m k ->
  exists words,
    word_list w k m = Ok words
    /\ length words = total_words k m
    /\ forall word, In word words ->
         0 <= word < 2 ^ 32
         /\ forall p, (p < 16)%nat ->
              field word p = 0 \/ field word p = 1 \/ field word p = 2.
Proof.
  intros Hshape.
  destruct (word_list_blocks w m k Hshape) as (blocks & Hblocks & Hhold).
  exists (concat (@concat Z <$> blocks)).
  split; [exact Hblocks |].
  split; [apply (length_word_list w m k); assumption |].
  intros word Hin.
  apply in_concat in Hin. destruct Hin as (l & Hl & Hin).
  apply in_map_iff in Hl. destruct Hl as (tiles & <- & Htiles).
  apply in_concat in Hin. destruct Hin as (packed & Hpacked & Hin).
  apply list_elem_of_In, list_elem_of_lookup_1 in Htiles, Hpacked, Hin.
  destruct Htiles as [row Htiles], Hpacked as [tile Hpacked], Hin as [j Hin].
  destruct Hhold as [Hlen Hrows].
  destruct (Hrows row) as (tiles' & Htiles' & Htlen & Hthold).
  { apply lookup_lt_Some in Htiles. lia. }
  assert (tiles' = tiles) as -> by congruence.
  destruct (Hthold tile) as (packed' & Hpacked' & Hlen8 & Hwords).
  { apply lookup_lt_Some in Hpacked. lia. }
  assert (packed' = packed) as -> by congruence.
  destruct (Hwords j) as (word' & Hword' & Hbound & Hfields).
  { apply lookup_lt_Some in Hin. lia. }
  assert (word' = word) as -> by congruence.
  split; [exact Hbound |].
  intros p Hp. rewrite (Hfields p Hp).
  destruct (16 * j + p <? 128)%nat; [apply encode_range | tauto].
Qed.

Lemma packed_fields_never_11_witness :
  exists words,
    word_list [[1; -1; 0; 1]; [0; 0; -1; -1]] 4 2 = Ok words
    /\ length words = total_words 4 2
    /\ forall word, In word words ->
         0 <= word < 2 ^ 32
         /\ forall p, (p < 16)%nat ->
              field word p = 0 \/ field word p = 1 \/ field word p = 2.
Proof.
  apply (packed_fields_never_11 [[1; -1; 0; 1]; [0; 0; -1; -1]] 2 4).
  split; [reflexivity |].
  repeat (apply List.Forall_cons; [reflexivity |]). apply List.Forall_nil.
Defined.

Lemma entry_lookup (w : list (list Z)) (k row col : nat) (r : list Z) (v : Z) :
  w !! row = Some r -> r !! col = Some v -> (col < k)%nat ->
  entry w k row col = v.
Proof.
  intros Hr Hv Hcol. unfold entry. rewrite Hr. simpl. rewrite Hv. simpl.
  destruct (Nat.ltb_spec col k); [reflexivity | lia].
Qed.

(** C4. Pack/unpack round trip: an [m] x [k] matrix with elements in
    {-1, 0, +1} is packed without exception into [m * ceil(k/128) * 8]
    words; the positions of a ragged last tile beyond column [k] hold 00; and
    decoding the words with the inverse encoding table, each row cut to [k]
    columns, gives back the matrix. *)
Theorem pack_unpack_roundtrip (w : list (list Z)) (m k : nat) :
  has_shape w m k -> Forall (Forall is_ternary) w ->
  exists words,
    word_list w k m = Ok words
    /\ length words = total_words k m
    /\ (k <= tiles_per_row k * 128 < k + 128)%nat
    /\ (forall row col, (row < m)%nat ->
                        (k <= col < tiles_per_row k * 128)%nat ->
                        packed_field words k row col = Some 0)
    /\ unpack words k m = Some w.
Proof.
  intros Hshape Hternary.
  destruct (word_list_blocks w m k Hshape) as (blocks & Hblocks & _).
  exists (concat (@concat Z <$> blocks)).
  assert (Htiles : (k <= tiles_per_row k * 128 < k + 128)%nat).
  { unfold tiles_per_row.
    pose proof (Nat.div_mod_eq (k + 127) 128).
    pose proof (Nat.mod_upper_bound (k + 127) 128 ltac:(lia)). lia. }
  split; [exact Hblocks |].
  split; [apply (length_word_list w m k); assumption |].
  split; [exact Htiles |]. split.
  - intros row col Hrow Hcol.
    rewrite (packed_field_entry w m k) by (assumption || lia).
    unfold entry. destruct (Nat.ltb_spec col k); [lia | reflexivity].
  - destruct Hshape as [Hm Hk]. unfold unpack.
    apply mapM_Some_2, Forall2_same_length_lookup_2.
    { rewrite length_seq. lia. }
    intros i row r Hi Hr. apply lookup_seq in Hi. destruct Hi as [-> Hi].
    simpl. assert (Hlen : length r = k).
    { rewrite List.Forall_forall in Hk. apply Hk, list_elem_of_In.
      eapply list_elem_of_lookup_2, Hr. }
    apply mapM_Some_2, Forall2_same_length_lookup_2.
    { rewrite length_seq. lia. }
    intros j col v Hj Hv. apply lookup_seq in Hj. destruct Hj as [-> Hj].
    simpl. unfold unpack_entry.
    rewrite (packed_field_entry w m k) by (try split; assumption || lia).
    simpl. rewrite (entry_lookup w k i j r v) by assumption.
    apply decode_encode.
    rewrite List.Forall_forall in Hternary.
    assert (Hrt : Forall is_ternary r).
    { apply Hternary, list_elem_of_In. eapply list_elem_of_lookup_2, Hr. }
    rewrite List.Forall_forall in Hrt.
    apply Hrt, list_elem_of_In. eapply list_elem_of_lookup_2, Hv.
Qed.

Lemma pack_unpack_roundtrip_witness :
  exists words,
    word_list [replicate 130 1] 130 1 = Ok words
    /\ length words = total_words 130 1
    /\ (130 <= tiles_per_row 130 * 128 < 130 + 128)%nat
    /\ (forall row col, (row < 1)%nat ->
                        (130 <= col < tiles_per_row 130 * 128)%nat ->
                        packed_field words 130 row col = Some 0)
    /\ unpack words 130 1 = Some [replicate 130 1].
Proof.
  apply (pack_unpack_roundtrip [replicate 130 1] 1 130).
  - split; [reflexivity |].
    apply List.Forall_cons; [reflexivity | apply List.Forall_nil].
  - apply List.Forall_cons; [| apply List.Forall_nil].
    apply Forall_replicate. unfold is_ternary. lia.
Defined.

(** * Further properties *)

(** ** The shift as a logarithm *)

Lemma shiftr_fits_log2 (m s : Z) :
  0 < m -> 0 <= s -> (Z.shiftr m s <= 127 <-> Z.log2 m < s + 7).
Proof.
  intros Hm Hs. rewrite Z.shiftr_div_pow2 by assumption.
  assert (Hpow : 0 < 2 ^ s) by (apply Z.pow_pos_nonneg; lia).
  rewrite <- Z.log2_lt_pow2 by assumption.
  rewrite Z.pow_add_r by lia. change (2 ^ 7) with 128.
  split.
  - intros Hfit.
    pose proof (Z.mul_succ_div_gt m (2 ^ s) Hpow). nia.
  - intros Hlt. assert (m / 2 ^ s < 128); [| lia].
    apply Z.div_lt_upper_bound; lia.
Qed.

Lemma find_shift_for_max_closed (m : Z) :
  find_shift_for_max m = Z.max 0 (Z.log2 m - 6).
Proof.
  destruct (find_shift_for_max_spec m) as (Hs & Hfit & Hbefore).
  destruct (Z_le_gt_dec m 0) as [Hle | Hpos].
  - rewrite Z.log2_nonpos by assumption.
    destruct (Z_le_gt_dec (find_shift_for_max m) 0) as [| Hgt]; [lia |].
    specialize (Hbefore 0 ltac:(lia)). rewrite Z.shiftr_0_r in Hbefore. lia.
  - apply (shiftr_fits_log2 m _ ltac:(lia) Hs) in Hfit.
    destruct (Z_le_gt_dec (find_shift_for_max m) (Z.max 0 (Z.log2 m - 6)))
      as [| Hgt]; [lia |].
    specialize (Hbefore (Z.max 0 (Z.log2 m - 6)) ltac:(lia)).
    assert (Z.shiftr m (Z.max 0 (Z.log2 m - 6)) <= 127); [| lia].
    apply shiftr_fits_log2; lia.
Qed.

Lemma find_shift_for_max_le_24 (m : Z) :
  m <= 2147483647 -> find_shift_for_max m <= 24.
Proof.
  intros Hmax. rewrite find_shift_for_max_closed.
  pose proof (Z.log2_le_mono m 2147483647 Hmax) as Hlog.
  change (Z.log2 2147483647) with 30 in Hlog. lia.
Qed.

(** X1. [find_shift_for_max] is a logarithm: the shift of [m] is
    [max 0 (log2 m - 6)], that is 0 for every [m <= 127], negative [m]
    included, and [log2 m - 6] for [m >= 128]. *)
Theorem find_shift_for_max_log2 (m : Z) :
  find_shift_for_max m = Z.max 0 (Z.log2 m - 6)
  /\ (m <= 127 -> find_shift_for_max m = 0)
  /\ (128 <= m -> find_shift_for_max m = Z.log2 m - 6).
Proof.
  rewrite find_shift_for_max_closed. split; [reflexivity |]. split.
  - intros Hsmall. pose proof (Z.log2_le_mono m 127 Hsmall) as Hlog.
    change (Z.log2 127) with 6 in Hlog. lia.
  - intros Hbig. pose proof (Z.log2_le_mono 128 m Hbig) as Hlog.
    change (Z.log2 128) with 7 in Hlog. lia.
Qed.

(** X2. A larger maximum never gets a smaller shift, and the shift of an
    int32 value is at most 24. *)
Theorem find_shift_for_max_monotone (m m' : Z) :
  m <= m' ->
  find_shift_for_max m <= find_shift_for_max m'
  /\ (m' <= 2147483647 -> find_shift_for_max m' <= 24).
Proof.
  intros Hle. split.
  - rewrite !find_shift_for_max_closed.
    pose proof (Z.log2_le_mono m m' Hle). lia.
  - apply find_shift_for_max_le_24.
Qed.

Lemma find_shift_for_max_monotone_witness :
  find_shift_for_max 127 <= find_shift_for_max 128
  /\ (128 <= 2147483647 -> find_shift_for_max 128 <= 24).
Proof. apply (find_shift_for_max_monotone 127 128). lia. Defined.

(** ** What calibration returns *)

Lemma astype_int32_range (x : Z) : is_int32 (astype_int32 x).
Proof.
  unfold is_int32. rewrite astype_int32_mod.
  pose proof (Z.mod_pos_bound (x + 2 ^ 31) (2 ^ 32) ltac:(lia)) as H.
  change (2 ^ 31) with 2147483648 in *. change (2 ^ 32) with 4294967296 in *.
  lia.
Qed.

Lemma foldl_max_attained (l : list Z) (x : Z) :
  foldl Z.max x l = x \/ In (foldl Z.max x l) l.
Proof.
  revert x. induction l as [| y l IH]; intros x; simpl; [left; reflexivity |].
  destruct (IH (Z.max x y)) as [E | Hin]; [| right; right; exact Hin].
  rewrite E. destruct (Z.max_spec x y) as [[_ ->] | [_ ->]]; [right | left]; auto.
Qed.

Lemma np_max_attained (l : list Z) (m : Z) : np_max l = Ok m -> In m l.
Proof.
  destruct l as [| x l]; [discriminate |]. intros [= <-].
  destruct (foldl_max_attained l x) as [-> | Hin]; [left | right]; auto.
Qed.

(** The maximum of a pass is its initial value or the [np.abs] of an
    accumulator of a sample. *)
Lemma for_each_track_max_attained (f : list Z -> res (list Z))
  (l : list (list Z)) (init M : Z) :
  for_each l (fun a max_acc => acc ← f a; track_max max_acc acc) init = Ok M ->
  M = init
  \/ exists a acc x, In a l /\ f a = Ok acc /\ In x acc /\ np_abs x = M.
Proof.
  revert init. induction l as [| a l IH]; intros init H; simpl in H.
  - injection H as <-. left. reflexivity.
  - bind_inv H. bind_inv Hv. unfold track_max in Hv. bind_inv Hv.
    injection Hv as <-.
    destruct (IH _ H) as [-> | (a' & acc & x & Ha' & Hacc & Hx & HM)].
    + destruct (Z.max_spec init v1) as [[_ ->] | [_ ->]]; [| left; reflexivity].
      right. apply np_max_attained, in_map_iff in Hv1.
      destruct Hv1 as (x & Hx & Hin).
      exists a, v0, x. split; [left; reflexivity |]. auto.
    + right. exists a', acc, x. split; [right; exact Ha' |]. auto.
Qed.

Lemma calibration_pass_attained (f : list Z -> res (list Z))
  (l : list (list Z)) (M : Z) :
  calibration_pass f l = Ok M ->
  M = 0 \/ exists a acc x, In a l /\ f a = Ok acc /\ In x acc /\ np_abs x = M.
Proof. apply for_each_track_max_attained. Qed.

Lemma calibration_pass_int32 (f : list Z -> res (list Z))
  (l : list (list Z)) (M : Z) :
  calibration_pass f l = Ok M -> 0 <= M <= 2147483647.
Proof.
  intros H. split; [apply (calibration_pass_bound f l M H) |].
  destruct (calibration_pass_attained f l M H) as [-> | (a & acc & x & _ & _ & _ & <-)];
    [lia |].
  apply astype_int32_range.
Qed.

(** The three passes behind a successful calibration. *)
Lemma calibrate_shift_passes (w1 w2 w3 : list (list Z))
  (cal_loader : list (list (list Z))) (shifts : list Z) :
  calibrate_shift w1 w2 w3 cal_loader = Ok shifts ->
  exists max_acc1 max_acc2 max_acc3,
    collect_int8_inputs cal_loader = Ok (concat cal_loader)
    /\ calibration_pass (acc_layer1 w1) (concat cal_loader) = Ok max_acc1
    /\ calibration_pass
         (acc_layer2 w1 (find_shift_for_max max_acc1) w2) (concat cal_loader)
       = Ok max_acc2
    /\ calibration_pass
         (acc_layer3 w1 (find_shift_for_max max_acc1) w2
            (find_shift_for_max max_acc2) w3) (concat cal_loader)
       = Ok max_acc3
    /\ shifts = [find_shift_for_max max_acc1; find_shift_for_max max_acc2;
                 find_shift_for_max max_acc3].
Proof.
  intros H. unfold calibrate_shift in H. bind_inv H.
  pose proof (collect_int8_inputs_Ok _ _ Hv) as (-> & _ & _).
  bind_inv H. rename v into max_acc1. bind_inv H. rename v into max_acc2.
  bind_inv H. rename v into max_acc3. injection H as <-.
  exists max_acc1, max_acc2, max_acc3. auto.
Qed.

(** X3. When [calibrate_shift] returns, it returns exactly three shifts,
    each between 0 and 24, and the loader holds at least one sample and no
    batch without samples. *)
Theorem calibrate_shift_three_shifts (w1 w2 w3 : list (list Z))
  (cal_loader : list (list (list Z))) (shifts : list Z) :
  calibrate_shift w1 w2 w3 cal_loader = Ok shifts ->
  length shifts = 3%nat
  /\ Forall (fun s => 0 <= s <= 24) shifts
  /\ concat cal_loader <> []
  /\ ~ In [] cal_loader.
Proof.
  intros H.
  destruct (calibrate_shift_passes _ _ _ _ _ H)
    as (M1 & M2 & M3 & Hcollect & H1 & H2 & H3 & ->).
  apply collect_int8_inputs_Ok in Hcollect.
  destruct Hcollect as (_ & Hne & Hbatches).
  apply calibration_pass_int32 in H1, H2, H3.
  split; [reflexivity |]. split; [| split].
  - repeat (apply List.Forall_cons;
            [split; [apply find_shift_for_max_spec
                    | apply find_shift_for_max_le_24; lia] |]).
    apply List.Forall_nil.
  - destruct cal_loader as [| acts loader]; [congruence |].
    apply List.Forall_inv in Hbatches. simpl.
    destruct acts; [congruence | discriminate].
  - rewrite List.Forall_forall in Hbatches. intros Hin.
    exact (Hbatches [] Hin eq_refl).
Qed.

Lemma calibrate_shift_three_shifts_witness :
  length [2; 1; 1] = 3%nat
  /\ Forall (fun s => 0 <= s <= 24) [2; 1; 1]
  /\ concat small_loader <> []
  /\ ~ In [] small_loader.
Proof.
  apply (calibrate_shift_three_shifts small_w1 small_w2 small_w3 small_loader).
  vm_compute. reflexivity.
Defined.

(** ** Exceptions of calibration *)

Lemma for_each_collect_error (loader all_acts : list (list (list Z))) (e : exn) :
  for_each loader
    (fun acts all_acts =>
       match acts with
       | [] => Raise RuntimeError
       | _ => Ok (all_acts ++ [acts])
       end) all_acts = Raise e ->
  e = RuntimeError /\ In [] loader.
Proof.
  revert all_acts. induction loader as [| acts loader IH]; intros all_acts H.
  - discriminate.
  - simpl in H. destruct acts as [| a acts].
    + injection H as <-. split; [reflexivity | left; reflexivity].
    + simpl in H. destruct (IH _ H) as [-> Hin]. split; [reflexivity | right; exact Hin].
Qed.

Lemma calibration_pass_error (f : list Z -> res (list Z)) (l : list (list Z))
  (e : exn) :
  (forall a e, f a = Raise e -> e = ValueError) ->
  calibration_pass f l = Raise e -> e = ValueError.
Proof.
  intros Hf. unfold calibration_pass. generalize 0.
  induction l as [| a l IH]; intros init H; [discriminate |].
  simpl in H. destruct (f a) as [acc | e'] eqn:Ef; simpl in H.
  - unfold track_max in H.
    destruct (np_max (np_abs <$> acc)) as [m | e'] eqn:Em; simpl in H.
    + exact (IH _ H).
    + injection H as <-. exact (np_max_error _ _ Em).
  - injection H as <-. exact (Hf _ _ Ef).
Qed.

(** X4. The exceptions of [calibrate_shift]: RuntimeError exactly when the
    loader yields a batch without samples, and otherwise nothing but
    ValueError (no batch at all, widths that differ, a sample whose length
    is not the width of the weights, a weight array without rows). *)
Theorem calibrate_shift_exceptions (w1 w2 w3 : list (list Z))
  (cal_loader : list (list (list Z))) :
  (In [] cal_loader -> calibrate_shift w1 w2 w3 cal_loader = Raise RuntimeError)
  /\ (forall e, calibrate_shift w1 w2 w3 cal_loader = Raise e ->
                ~ In [] cal_loader -> e = ValueError).
Proof.
  unfold calibrate_shift, collect_int8_inputs. split.
  - intros Hin.
    destruct (for_each cal_loader _ []) as [all_acts | e] eqn:E.
    + apply for_each_collect in E. destruct E as [_ Hne].
      rewrite List.Forall_forall in Hne. destruct (Hne [] Hin eq_refl).
    + apply for_each_collect_error in E. destruct E as [-> _]. reflexivity.
  - intros e H Hnot.
    destruct (for_each cal_loader _ []) as [all_acts | e'] eqn:E.
    + simpl in H.
      destruct (np_concatenate all_acts) as [all_inputs | e'] eqn:Ec.
      * simpl in H.
        destruct (calibration_pass (acc_layer1 w1) all_inputs)
          as [max_acc1 | e'] eqn:E1; simpl in H.
        2: { injection H as <-.
             exact (calibration_pass_error _ _ _ (acc_layer1_error w1) E1). }
        destruct (calibration_pass (acc_layer2 w1 _ w2) all_inputs)
          as [max_acc2 | e'] eqn:E2; simpl in H.
        2: { injection H as <-.
             exact (calibration_pass_error _ _ _ (acc_layer2_error w1 _ w2) E2). }
        destruct (calibration_pass (acc_layer3 w1 _ w2 _ w3) all_inputs)
          as [max_acc3 | e'] eqn:E3; simpl in H; [discriminate |].
        injection H as <-.
        exact (calibration_pass_error _ _ _ (acc_layer3_error w1 _ w2 _ w3) E3).
      * simpl in H. injection H as <-. unfold np_concatenate in Ec.
        destruct all_acts as [| arr arrs]; [congruence |].
        destruct (forallb _ arrs); congruence.
    + apply for_each_collect_error in E. tauto.
Qed.

(** ** Tightness of the calibrated shifts *)

Lemma accumulator_abs (w : list (list Z)) (a acc : list Z) (x : Z) :
  int8_weights w -> Forall is_int8 a ->
  matmul32 w a = Ok acc -> In x acc -> np_abs x = Z.abs x.
Proof.
  intros Hw Ha Hacc Hx. apply matmul32_Ok in Hacc. destruct Hacc as [-> _].
  apply in_map_iff in Hx. destruct Hx as (row & <- & Hrow).
  unfold int8_weights in Hw. rewrite List.Forall_forall in Hw.
  destruct (Hw row Hrow) as [Hrow8 Hlen].
  destruct (dot32_int8 row a Hrow8 Hlen Ha) as [Heq Habs].
  rewrite Habs, Heq. reflexivity.
Qed.

(** A positive shift is forced by an accumulator of the pass. *)
Lemma pass_shift_tight (f : list Z -> res (list Z)) (l : list (list Z)) (M : Z) :
  calibration_pass f l = Ok M -> 0 < find_shift_for_max M ->
  exists a acc x,
    In a l /\ f a = Ok acc /\ In x acc
    /\ Z.shiftr (np_abs x) (find_shift_for_max M - 1) > 127.
Proof.
  intros Hpass Hpos.
  destruct (find_shift_for_max_spec M) as (_ & _ & Hbefore).
  specialize (Hbefore (find_shift_for_max M - 1) ltac:(lia)).
  destruct (calibration_pass_attained f l M Hpass)
    as [-> | (a & acc & x & Ha & Hacc & Hx & HM)].
  - change (find_shift_for_max 0) with 0 in Hpos. lia.
  - exists a, acc, x. rewrite HM. auto.
Qed.

(** X5. No calibrated shift is larger than the calibration set requires:
    when a layer's shift [s] is positive, some accumulator of that layer,
    for some sample of the set, has a magnitude that does not fit 7 bits
    after a shift by [s - 1]. *)
Theorem calibrated_shifts_tight (w1 w2 w3 : list (list Z))
  (cal_loader : list (list (list Z))) (s1 s2 s3 : Z) :
  int8_weights w1 -> int8_weights w2 -> int8_weights w3 ->
  Forall (Forall (Forall is_int8)) cal_loader ->
  calibrate_shift w1 w2 w3 cal_loader = Ok [s1; s2; s3] ->
  (0 < s1 -> exists a acc x,
       In a (concat cal_loader) /\ acc_layer1 w1 a = Ok acc /\ In x acc
       /\ Z.shiftr (Z.abs x) (s1 - 1) > 127)
  /\ (0 < s2 -> exists a acc x,
       In a (concat cal_loader) /\ acc_layer2 w1 s1 w2 a = Ok acc /\ In x acc
       /\ Z.shiftr (Z.abs x) (s2 - 1) > 127)
  /\ (0 < s3 -> exists a acc x,
       In a (concat cal_loader) /\ acc_layer3 w1 s1 w2 s2 w3 a = Ok acc
       /\ In x acc /\ Z.shiftr (Z.abs x) (s3 - 1) > 127).
Proof.
  intros Hw1 Hw2 Hw3 Hloader H.
  destruct (calibrate_shift_passes _ _ _ _ _ H)
    as (M1 & M2 & M3 & _ & H1 & H2 & H3 & [= -> -> ->]).
  assert (Ha8 : forall a, In a (concat cal_loader) -> Forall is_int8 a).
  { intros a Ha. apply in_concat in Ha. destruct Ha as (acts & Hacts & Ha).
    rewrite List.Forall_forall in Hloader. specialize (Hloader acts Hacts).
    rewrite List.Forall_forall in Hloader. exact (Hloader a Ha). }
  split; [| split]; intros Hpos.
  - destruct (pass_shift_tight _ _ _ H1 Hpos) as (a & acc & x & Ha & Hacc & Hx & Hgt).
    exists a, acc, x. repeat (split; [assumption |]).
    rewrite <- (accumulator_abs w1 a acc x Hw1 (Ha8 a Ha) Hacc Hx). exact Hgt.
  - destruct (pass_shift_tight _ _ _ H2 Hpos) as (a & acc & x & Ha & Hacc & Hx & Hgt).
    exists a, acc, x. repeat (split; [assumption |]).
    unfold acc_layer2 in Hacc. bind_inv Hacc.
    rewrite <- (accumulator_abs w2 _ acc x Hw2 (relu_rescale_int8 _ _) Hacc Hx).
    exact Hgt.
  - destruct (pass_shift_tight _ _ _ H3 Hpos) as (a & acc & x & Ha & Hacc & Hx & Hgt).
    exists a, acc, x. repeat (split; [assumption |]).
    unfold acc_layer3 in Hacc. bind_inv Hacc. bind_inv Hacc.
    rewrite <- (accumulator_abs w3 _ acc x Hw3 (relu_rescale_int8 _ _) Hacc Hx).
    exact Hgt.
Qed.

Lemma calibrated_shifts_tight_witness :
  (0 < 2 -> exists a acc x,
       In a (concat small_loader) /\ acc_layer1 small_w1 a = Ok acc /\ In x acc
       /\ Z.shiftr (Z.abs x) (2 - 1) > 127)
  /\ (0 < 1 -> exists a acc x,
       In a (concat small_loader)
       /\ acc_layer2 small_w1 2 small_w2 a = Ok acc /\ In x acc
       /\ Z.shiftr (Z.abs x) (1 - 1) > 127)
  /\ (0 < 1 -> exists a acc x,
       In a (concat small_loader)
       /\ acc_layer3 small_w1 2 small_w2 1 small_w3 a = Ok acc
       /\ In x acc /\ Z.shiftr (Z.abs x) (1 - 1) > 127).
Proof.
  apply (calibrated_shifts_tight small_w1 small_w2 small_w3 small_loader 2 1 1).
  - repeat (apply List.Forall_cons; [split; [Forall_literal | simpl; lia] |]).
    apply List.Forall_nil.
  - repeat (apply List.Forall_cons; [split; [Forall_literal | simpl; lia] |]).
    apply List.Forall_nil.
  - repeat (apply List.Forall_cons; [split; [Forall_literal | simpl; lia] |]).
    apply List.Forall_nil.
  - repeat (apply List.Forall_cons;
            [repeat (apply List.Forall_cons; [Forall_literal |]);
             apply List.Forall_nil |]).
    apply List.Forall_nil.
  - vm_compute. reflexivity.
Defined.

(** ** Layers without signal *)

Lemma astype_int32_0 : astype_int32 0 = 0.
Proof. reflexivity. Qed.

Lemma foldl_dot32_zero (l : list (Z * Z)) :
  Forall (fun p => p.1 * p.2 = 0) l ->
  foldl (fun acc p => astype_int32 (acc + astype_int32 (p.1 * p.2))) 0 l = 0.
Proof.
  induction 1 as [| p l Hp _ IH]; [reflexivity |].
  simpl. rewrite Hp. exact IH.
Qed.

(** A row of zeros and an input of zeros both give the accumulator 0. *)
Lemma dot32_zero_row (row a : list Z) :
  Forall (fun w => w = 0) row -> dot32 row a = 0.
Proof.
  intros Hrow. apply foldl_dot32_zero.
  revert a. induction Hrow as [| w row -> _ IH]; intros a; [constructor |].
  destruct a as [| x a]; [constructor |].
  simpl. constructor; [reflexivity | apply IH].
Qed.

Lemma dot32_zero_input (row a : list Z) :
  Forall (fun x => x = 0) a -> dot32 row a = 0.
Proof.
  intros Ha. apply foldl_dot32_zero.
  revert row. induction Ha as [| x a -> _ IH]; intros row.
  - destruct row; constructor.
  - destruct row as [| w row]; [constructor |].
    rewrite !fmap_cons. cbn [zip_with]. constructor; [| apply IH].
    cbn [fst snd]. rewrite astype_int32_0. lia.
Qed.

Lemma matmul32_zero (w : list (list Z)) (a acc : list Z) :
  Forall (Forall (fun x => x = 0)) w \/ Forall (fun x => x = 0) a ->
  matmul32 w a = Ok acc -> Forall (fun x => x = 0) acc.
Proof.
  intros Hzero Hacc. apply matmul32_Ok in Hacc. destruct Hacc as [-> _].
  rewrite List.Forall_map. destruct Hzero as [Hw | Ha].
  - eapply List.Forall_impl; [| exact Hw]. intros row Hrow.
    apply dot32_zero_row, Hrow.
  - apply List.Forall_forall. intros row _. apply dot32_zero_input, Ha.
Qed.

Lemma relu_rescale_zero (acc : list Z) (s : Z) :
  Forall (fun x => x = 0) acc -> Forall (fun x => x = 0) (relu_rescale acc s).
Proof.
  intros Hacc. unfold relu_rescale. rewrite List.Forall_map.
  eapply List.Forall_impl; [| exact Hacc]. intros x ->. simpl.
  rewrite Z.shiftr_0_l. reflexivity.
Qed.

(** A pass whose accumulators are all zero has the maximum 0. *)
Lemma calibration_pass_zero (f : list Z -> res (list Z)) (l : list (list Z))
  (M : Z) :
  (forall a acc, f a = Ok acc -> Forall (fun x => x = 0) acc) ->
  calibration_pass f l = Ok M -> M = 0.
Proof.
  intros Hf H.
  destruct (calibration_pass_attained f l M H)
    as [-> | (a & acc & x & _ & Hacc & Hx & <-)]; [reflexivity |].
  specialize (Hf a acc Hacc). rewrite List.Forall_forall in Hf.
  rewrite (Hf x Hx). reflexivity.
Qed.

Lemma acc_layer2_zero (w1 : list (list Z)) (s1 : Z) (w2 : list (list Z))
  (a acc : list Z) :
  Forall (Forall (fun x => x = 0)) w1 \/ Forall (Forall (fun x => x = 0)) w2 ->
  acc_layer2 w1 s1 w2 a = Ok acc -> Forall (fun x => x = 0) acc.
Proof.
  intros Hzero Hacc. unfold acc_layer2 in Hacc. bind_inv Hacc.
  apply (matmul32_zero w2 (relu_rescale v s1) acc); [| exact Hacc].
  destruct Hzero as [Hw1 | Hw2]; [right | left; exact Hw2].
  apply relu_rescale_zero, (matmul32_zero w1 a v); [left; exact Hw1 | exact Hv].
Qed.

Lemma acc_layer3_zero (w1 : list (list Z)) (s1 : Z) (w2 : list (list Z))
  (s2 : Z) (w3 : list (list Z)) (a acc : list Z) :
  Forall (Forall (fun x => x = 0)) w1 \/ Forall (Forall (fun x => x = 0)) w2
  \/ Forall (Forall (fun x => x = 0)) w3 ->
  acc_layer3 w1 s1 w2 s2 w3 a = Ok acc -> Forall (fun x => x = 0) acc.
Proof.
  intros Hzero Hacc.
  assert (Hacc2 : forall acc2, acc_layer2 w1 s1 w2 a = Ok acc2 ->
                               matmul32 w3 (relu_rescale acc2 s2) = Ok acc).
  { intros acc2 H2. unfold acc_layer2 in H2. unfold acc_layer3 in Hacc.
    destruct (matmul32 w1 a) as [acc1 |]; [simpl in * | discriminate].
    rewrite H2 in Hacc. exact Hacc. }
  assert (Hex : exists acc2, acc_layer2 w1 s1 w2 a = Ok acc2).
  { unfold acc_layer2. unfold acc_layer3 in Hacc.
    destruct (matmul32 w1 a) as [acc1 |]; [simpl in * | discriminate].
    destruct (matmul32 w2 _) as [acc2 |]; [eauto | discriminate]. }
  destruct Hex as [acc2 H2]. specialize (Hacc2 acc2 H2).
  apply (matmul32_zero w3 (relu_rescale acc2 s2) acc); [| exact Hacc2].
  destruct Hzero as [Hw1 | [Hw2 | Hw3]]; [right | right | left; exact Hw3].
  - apply relu_rescale_zero, (acc_layer2_zero w1 s1 w2 a); [left | ]; assumption.
  - apply relu_rescale_zero, (acc_layer2_zero w1 s1 w2 a); [right | ]; assumption.
Qed.

(** X6. A layer without signal: when the weights of a layer are all zero,
    calibration gives this layer and every later layer the shift 0. *)
Theorem calibrate_shift_zero_layer (w1 w2 w3 : list (list Z))
  (cal_loader : list (list (list Z))) (s1 s2 s3 : Z) :
  calibrate_shift w1 w2 w3 cal_loader = Ok [s1; s2; s3] ->
  (Forall (Forall (fun x => x = 0)) w1 -> s1 = 0 /\ s2 = 0 /\ s3 = 0)
  /\ (Forall (Forall (fun x => x = 0)) w2 -> s2 = 0 /\ s3 = 0)
  /\ (Forall (Forall (fun x => x = 0)) w3 -> s3 = 0).
Proof.
  intros H.
  destruct (calibrate_shift_passes _ _ _ _ _ H)
    as (M1 & M2 & M3 & _ & H1 & H2 & H3 & [= -> -> ->]).
  assert (Z1 : Forall (Forall (fun x => x = 0)) w1 -> M1 = 0).
  { intros Hw. apply (fun Hf => calibration_pass_zero _ _ _ Hf H1).
    intros a acc. apply matmul32_zero. left. exact Hw. }
  assert (Z2 : Forall (Forall (fun x => x = 0)) w1
               \/ Forall (Forall (fun x => x = 0)) w2 -> M2 = 0).
  { intros Hw. apply (fun Hf => calibration_pass_zero _ _ _ Hf H2).
    intros a acc. apply acc_layer2_zero, Hw. }
  assert (Z3 : Forall (Forall (fun x => x = 0)) w1
               \/ Forall (Forall (fun x => x = 0)) w2
               \/ Forall (Forall (fun x => x = 0)) w3 -> M3 = 0).
  { intros Hw. apply (fun Hf => calibration_pass_zero _ _ _ Hf H3).
    intros a acc. apply acc_layer3_zero, Hw. }
  split; [| split]; intros Hw.
  - rewrite Z1, Z2, Z3 by auto. auto.
  - rewrite Z2, Z3 by auto. auto.
  - rewrite Z3 by auto. reflexivity.
Qed.

Lemma calibrate_shift_zero_layer_witness :
  (Forall (Forall (fun x => x = 0)) small_w1 -> 1 = 0 /\ 0 = 0 /\ 0 = 0)
  /\ (Forall (Forall (fun x => x = 0)) [[0; 0; 0]; [0; 0; 0]] -> 0 = 0 /\ 0 = 0)
  /\ (Forall (Forall (fun x => x = 0)) [[1; -1]] -> 0 = 0).
Proof.
  apply (calibrate_shift_zero_layer small_w1 [[0; 0; 0]; [0; 0; 0]] [[1; -1]]
           [[[64; 64; 64]]] 1 0 0).
  vm_compute. reflexivity.
Defined.

(** ** Hidden activations *)

Lemma relu_rescale_range (acc : list Z) (s : Z) :
  Forall (fun x => 0 <= x <= 127) (relu_rescale acc s).
Proof.
  unfold relu_rescale. rewrite List.Forall_map. apply List.Forall_forall.
  intros x _. simpl. unfold clip.
  rewrite astype_int8_id; unfold is_int8; lia.
Qed.

(** X7. The activations a hidden layer passes on lie in [0, 127], so the
    accumulator of a ternary row over them is exact in int32 and its
    magnitude is at most 127 times the row length. *)
Theorem hidden_accumulator_bound (row acc : list Z) (s : Z) :
  Forall is_ternary row -> Z.of_nat (length row) <= 131071 ->
  Forall (fun x => 0 <= x <= 127) (relu_rescale acc s)
  /\ dot32 row (relu_rescale acc s) = dot row (relu_rescale acc s)
  /\ Z.abs (dot row (relu_rescale acc s)) <= Z.of_nat (length row) * 127.
Proof.
  intros Hrow Hlen. pose proof (relu_rescale_range acc s) as Hout.
  split; [exact Hout |].
  assert (Hzip : (length (zip row (relu_rescale acc s)) <= length row)%nat)
    by (rewrite length_zip_with; lia).
  destruct (dot32_exact 1 127 row (relu_rescale acc s)) as [Heq Hbound];
    [lia | lia | apply Forall_ternary_abs, Hrow
     | eapply List.Forall_impl; [| exact Hout]; simpl; lia
     | apply Forall_int8_int32; eapply List.Forall_impl;
       [apply is_ternary_int8 | exact Hrow]
     | apply Forall_int8_int32, relu_rescale_int8 | lia |].
  split; [exact Heq | lia].
Qed.

Lemma hidden_accumulator_bound_witness :
  Forall (fun x => 0 <= x <= 127) (relu_rescale [381; -381; 254] 2)
  /\ dot32 [1; -1; 1] (relu_rescale [381; -381; 254] 2)
     = dot [1; -1; 1] (relu_rescale [381; -381; 254] 2)
  /\ Z.abs (dot [1; -1; 1] (relu_rescale [381; -381; 254] 2))
     <= Z.of_nat (length [1; -1; 1]) * 127.
Proof.
  apply (hidden_accumulator_bound [1; -1; 1] [381; -381; 254] 2).
  - Forall_literal.
  - simpl. lia.
Defined.

(** ** Inference against calibration *)

(** The two ways the script writes a hidden layer agree. *)
Lemma relu_rescale_eq (acc : list Z) (s : Z) :
  relu (rescale acc s) = relu_rescale acc s.
Proof.
  unfold relu, rescale, relu_rescale. rewrite <- list_fmap_compose.
  apply list_fmap_ext. intros i x _. simpl. unfold clip.
  rewrite (astype_int8_id (Z.max (-128) _)) by (unfold is_int8; lia).
  reflexivity.
Qed.

Lemma final_accumulator_acc_layer3 (w1 w2 w3 : list (list Z))
  (s1 s2 : Z) (rest a : list Z) :
  final_accumulator w1 w2 w3 (s1 :: s2 :: rest) a
  = acc_layer3 w1 s1 w2 s2 w3 a.
Proof.
  unfold final_accumulator, acc_layer3.
  destruct (matmul32 w1 a) as [acc1 |]; [simpl | reflexivity].
  rewrite relu_rescale_eq.
  destruct (matmul32 w2 _) as [acc2 |]; [simpl | reflexivity].
  rewrite relu_rescale_eq. reflexivity.
Qed.

(** X8. Inference sees the accumulators that calibration measured: the
    accumulator of the last layer in [verify_int8_inference] is the one of
    pass 3 of [calibrate_shift] under the same first two shifts, for every
    input and every weights, exceptions included; the prediction is the
    arg-max of that accumulator rescaled by the third shift, and shifts
    after the third are ignored. *)
Theorem final_accumulator_as_calibrated (w1 w2 w3 : list (list Z))
  (s1 s2 s3 : Z) (rest a : list Z) :
  final_accumulator w1 w2 w3 (s1 :: s2 :: s3 :: rest) a
  = acc_layer3 w1 s1 w2 s2 w3 a
  /\ predict w1 w2 w3 (s1 :: s2 :: s3 :: rest) a
     = (acc3 ← acc_layer3 w1 s1 w2 s2 w3 a; np_argmax (rescale acc3 s3))
  /\ predict w1 w2 w3 (s1 :: s2 :: s3 :: rest) a
     = predict w1 w2 w3 [s1; s2; s3] a.
Proof.
  assert (E : forall rest', predict w1 w2 w3 (s1 :: s2 :: s3 :: rest') a
                            = (acc3 ← acc_layer3 w1 s1 w2 s2 w3 a;
                               np_argmax (rescale acc3 s3))).
  { intros rest'. unfold predict. rewrite final_accumulator_acc_layer3.
    destruct (acc_layer3 w1 s1 w2 s2 w3 a); reflexivity. }
  split; [apply final_accumulator_acc_layer3 |].
  split; [apply E |]. rewrite !E. reflexivity.
Qed.

Lemma length_matmul32 (w : list (list Z)) (a acc : list Z) :
  matmul32 w a = Ok acc -> length acc = length w.
Proof.
  intros H. apply matmul32_Ok in H. destruct H as [-> _]. apply length_fmap.
Qed.

(** X9. A prediction needs three shifts and names a row of the last layer:
    when [pred] is computed, [shifts] has at least three entries and [pred]
    is smaller than the number of rows of [w3]. *)
Theorem predict_in_range (w1 w2 w3 : list (list Z)) (shifts a : list Z)
  (pred : nat) :
  predict w1 w2 w3 shifts a = Ok pred ->
  (3 <= length shifts)%nat /\ (pred < length w3)%nat.
Proof.
  intros H. unfold predict in H. bind_inv H. rename v into acc3.
  bind_inv H. rename v into s. unfold index in Hv0.
  destruct (shifts !! 2%nat) as [s' |] eqn:Es; [| discriminate].
  apply lookup_lt_Some in Es. split; [lia |].
  apply np_argmax_spec in H. destruct H as (x & Hx & _).
  apply lookup_lt_Some in Hx. unfold rescale in Hx. rewrite length_fmap in Hx.
  assert (Hlen : length acc3 = length w3).
  { unfold final_accumulator in Hv. bind_inv Hv. bind_inv Hv. bind_inv Hv.
    bind_inv Hv. exact (length_matmul32 _ _ _ Hv). }
  lia.
Qed.

Lemma predict_in_range_witness :
  (3 <= length [2; 1; 1])%nat /\ (0 < length small_w3)%nat.
Proof.
  apply (predict_in_range small_w1 small_w2 small_w3 [2; 1; 1] [127; 127; 127]).
  vm_compute. reflexivity.
Defined.

Lemma rescale_exact (acc : list Z) (s : Z) :
  Forall (fun x => is_int8 (Z.shiftr x s)) acc ->
  rescale acc s = (fun x => Z.shiftr x s) <$> acc
  /\ relu_rescale acc s = (fun x => Z.max (Z.shiftr x s) 0) <$> acc.
Proof.
  intros Hfit. rewrite List.Forall_forall in Hfit.
  unfold rescale, relu_rescale. split; apply list_fmap_ext; intros i x Hx;
    apply list_elem_of_lookup_2, list_elem_of_In, Hfit in Hx;
    unfold is_int8 in Hx; simpl; unfold clip.
  - rewrite astype_int8_id by (unfold is_int8; lia). lia.
  - rewrite astype_int8_id by (unfold is_int8; lia). lia.
Qed.

(** X10. With calibrated shifts the clamp never saturates on a calibration
    sample: in every layer the rescaled output is the shifted accumulator
    itself (rectified in the hidden layers), and the predicted class is the
    arg-max of the shifted accumulator of the last layer. *)
Theorem calibrated_inference_never_clips (w1 w2 w3 : list (list Z))
  (cal_loader : list (list (list Z))) (s1 s2 s3 : Z) (a : list Z) :
  int8_weights w1 -> int8_weights w2 -> int8_weights w3 ->
  Forall (Forall (Forall is_int8)) cal_loader ->
  calibrate_shift w1 w2 w3 cal_loader = Ok [s1; s2; s3] ->
  In a (concat cal_loader) ->
  exists acc1 acc2 acc3,
    acc_layer1 w1 a = Ok acc1
    /\ acc_layer2 w1 s1 w2 a = Ok acc2
    /\ final_accumulator w1 w2 w3 [s1; s2; s3] a = Ok acc3
    /\ relu (rescale acc1 s1) = (fun x => Z.max (Z.shiftr x s1) 0) <$> acc1
    /\ relu (rescale acc2 s2) = (fun x => Z.max (Z.shiftr x s2) 0) <$> acc2
    /\ rescale acc3 s3 = (fun x => Z.shiftr x s3) <$> acc3
    /\ predict w1 w2 w3 [s1; s2; s3] a
       = np_argmax ((fun x => Z.shiftr x s3) <$> acc3).
Proof.
  intros Hw1 Hw2 Hw3 Hloader H Ha.
  destruct (calibrate_shift_passes _ _ _ _ _ H)
    as (M1 & M2 & M3 & _ & H1 & H2 & H3 & [= -> -> ->]).
  assert (Ha8 : Forall is_int8 a).
  { apply in_concat in Ha. destruct Ha as (acts & Hacts & Ha).
    rewrite List.Forall_forall in Hloader. specialize (Hloader acts Hacts).
    rewrite List.Forall_forall in Hloader. exact (Hloader a Ha). }
  apply calibration_pass_bound in H1, H2, H3.
  destruct H1 as [_ H1], H2 as [_ H2], H3 as [_ H3].
  rewrite List.Forall_forall in H1, H2, H3.
  destruct (H1 a Ha) as (acc1 & Hacc1 & HM1).
  destruct (H2 a Ha) as (acc2 & Hacc2 & HM2).
  destruct (H3 a Ha) as (acc3 & Hacc3 & HM3).
  exists acc1, acc2, acc3.
  split; [exact Hacc1 |]. split; [exact Hacc2 |].
  split; [rewrite final_accumulator_acc_layer3; exact Hacc3 |].
  pose proof Hacc2 as Hacc2'. pose proof Hacc3 as Hacc3'.
  unfold acc_layer1 in Hacc1. unfold acc_layer2 in Hacc2'.
  unfold acc_layer3 in Hacc3'. rewrite Hacc1 in Hacc2', Hacc3'.
  simpl in Hacc2', Hacc3'. rewrite Hacc2' in Hacc3'. simpl in Hacc3'.
  pose proof (layer_fits w1 a acc1 M1 Hw1 Ha8 Hacc1 HM1) as F1.
  pose proof (layer_fits w2 _ acc2 M2 Hw2 (relu_rescale_int8 _ _) Hacc2' HM2) as F2.
  pose proof (layer_fits w3 _ acc3 M3 Hw3 (relu_rescale_int8 _ _) Hacc3' HM3) as F3.
  rewrite !relu_rescale_eq.
  split; [apply rescale_exact, F1 |]. split; [apply rescale_exact, F2 |].
  destruct (rescale_exact acc3 _ F3) as [E3 _].
  split; [exact E3 |].
  unfold predict. rewrite final_accumulator_acc_layer3, Hacc3. simpl.
  rewrite E3. reflexivity.
Qed.

Lemma calibrated_inference_never_clips_witness :
  exists acc1 acc2 acc3,
    acc_layer1 small_w1 [127; 127; 127] = Ok acc1
    /\ acc_layer2 small_w1 2 small_w2 [127; 127; 127] = Ok acc2
    /\ final_accumulator small_w1 small_w2 small_w3 [2; 1; 1] [127; 127; 127]
       = Ok acc3
    /\ relu (rescale acc1 2) = (fun x => Z.max (Z.shiftr x 2) 0) <$> acc1
    /\ relu (rescale acc2 1) = (fun x => Z.max (Z.shiftr x 1) 0) <$> acc2
    /\ rescale acc3 1 = (fun x => Z.shiftr x 1) <$> acc3
    /\ predict small_w1 small_w2 small_w3 [2; 1; 1] [127; 127; 127]
       = np_argmax ((fun x => Z.shiftr x 1) <$> acc3).
Proof.
  apply (calibrated_inference_never_clips small_w1 small_w2 small_w3
           small_loader 2 1 1 [127; 127; 127]).
  - repeat (apply List.Forall_cons; [split; [Forall_literal | simpl; lia] |]).
    apply List.Forall_nil.
  - repeat (apply List.Forall_cons; [split; [Forall_literal | simpl; lia] |]).
    apply List.Forall_nil.
  - repeat (apply List.Forall_cons; [split; [Forall_literal | simpl; lia] |]).
    apply List.Forall_nil.
  - repeat (apply List.Forall_cons;
            [repeat (apply List.Forall_cons; [Forall_literal |]);
             apply List.Forall_nil |]).
    apply List.Forall_nil.
  - vm_compute. reflexivity.
  - simpl. tauto.
Defined.

(** ** The counters of the verification *)

(** The loop over the samples of one batch, from sample [j] on. *)
Lemma verify_batch_count (w1 w2 w3 : list (list Z)) (shifts : list Z)
  (acts : list (list Z)) (target : list Z) (n j : nat)
  (counters counters' : nat * nat) :
  for_each (seq j n)
    (fun b counters =>
       a ← index acts b;
       pred ← predict w1 w2 w3 shifts a;
       target ← index target b;
       mret (if Z.of_nat pred =? target
             then (S counters.1, S counters.2)
             else (counters.1, S counters.2)))
    counters = Ok counters' ->
  (j + n = length acts)%nat ->
  length (zip (drop j acts) (drop j target)) = n
  /\ counters'.2 = (counters.2 + n)%nat
  /\ counters'.1
     = (counters.1
        + length (List.filter (is_correct w1 w2 w3 shifts)
                    (zip (drop j acts) (drop j target))))%nat.
Proof.
  revert j counters. induction n as [| n IH]; intros j counters H Hlen.
  - injection H as <-. rewrite drop_ge by lia. simpl. lia.
  - simpl in H. bind_inv H. bind_inv Hv. rename v0 into a.
    bind_inv Hv. rename v0 into pred. bind_inv Hv. rename v0 into t.
    injection Hv as <-.
    unfold index in Hv0, Hv2.
    destruct (acts !! j) as [a' |] eqn:Ea; [| discriminate].
    injection Hv0 as ->.
    destruct (target !! j) as [t' |] eqn:Et; [| discriminate].
    injection Hv2 as ->.
    rewrite (drop_S acts a j Ea), (drop_S target t j Et).
    destruct (IH (S j) _ H ltac:(lia)) as (Hzip & Htotal & Hcorrect).
    cbn [zip_with length List.filter]. unfold is_correct at 1. cbn [fst snd].
    rewrite Hv1. rewrite Hzip, Htotal, Hcorrect.
    destruct (Z.of_nat pred =? t); simpl; lia.
Qed.

Lemma verify_loader_count (w1 w2 w3 : list (list Z)) (shifts : list Z)
  (test_loader : list (list (list Z) * list Z)) (counters counters' : nat * nat) :
  for_each test_loader
    (fun batch counters =>
       match batch.1 with
       | [] => Raise RuntimeError
       | _ =>
           for_range (length batch.1)
             (fun b counters =>
                a ← index batch.1 b;
                pred ← predict w1 w2 w3 shifts a;
                target ← index batch.2 b;
                mret (if Z.of_nat pred =? target
                      then (S counters.1, S counters.2)
                      else (counters.1, S counters.2)))
             counters
       end) counters = Ok counters' ->
  length (labelled test_loader) = length (concat (fst <$> test_loader))
  /\ counters'.2 = (counters.2 + length (labelled test_loader))%nat
  /\ counters'.1
     = (counters.1
        + length (List.filter (is_correct w1 w2 w3 shifts)
                    (labelled test_loader)))%nat.
Proof.
  revert counters. induction test_loader as [| batch loader IH]; intros counters H.
  - injection H as <-. simpl. lia.
  - simpl in H. bind_inv H.
    assert (Hbatch : for_range (length batch.1)
                       (fun b counters =>
                          a ← index batch.1 b;
                          pred ← predict w1 w2 w3 shifts a;
                          target ← index batch.2 b;
                          mret (if Z.of_nat pred =? target
                                then (S counters.1, S counters.2)
                                else (counters.1, S counters.2)))
                       counters = Ok v).
    { destruct batch.1; [discriminate | exact Hv]. }
    apply verify_batch_count in Hbatch; [| lia].
    rewrite !drop_0 in Hbatch. destruct Hbatch as (Hzip & Htotal & Hcorrect).
    destruct (IH _ H) as (Hlen & Htotal' & Hcorrect').
    unfold labelled in *. rewrite !fmap_cons. simpl concat.
    rewrite !length_app, List.filter_app, length_app, Hzip. lia.
Qed.

(** X11. The counters of [verify_int8_inference]: when it returns, [total]
    is the number of samples of the test loader, which is not 0, and
    [correct] is the number of samples whose predicted class is their
    label. *)
Theorem verify_int8_inference_counts (w1 w2 w3 : list (list Z))
  (test_loader : list (list (list Z) * list Z)) (shifts : list Z)
  (correct total : nat) :
  verify_int8_inference w1 w2 w3 test_loader shifts = Ok (correct, total) ->
  total = length (concat (fst <$> test_loader))
  /\ (0 < total)%nat
  /\ correct
     = length (List.filter (is_correct w1 w2 w3 shifts) (labelled test_loader))
  /\ (correct <= total)%nat.
Proof.
  intros H. unfold verify_int8_inference in H. bind_inv H.
  apply verify_loader_count in Hv. destruct Hv as (Hlen & Htotal & Hcorrect).
  destruct v as [c t]. simpl in *.
  destruct t as [| t]; [discriminate |]. injection H as <- <-.
  pose proof (List.filter_length_le (is_correct w1 w2 w3 shifts)
                (labelled test_loader)).
  lia.
Qed.

Lemma verify_int8_inference_counts_witness :
  2%nat = length (concat (fst <$> [([[127; 127; 127]; [100; 27; 5]], [0; 1])]))
  /\ (0 < 2)%nat
  /\ 1%nat
     = length (List.filter (is_correct small_w1 small_w2 small_w3 [2; 1; 1])
                 (labelled [([[127; 127; 127]; [100; 27; 5]], [0; 1])]))
  /\ (1 <= 2)%nat.
Proof.
  apply (verify_int8_inference_counts small_w1 small_w2 small_w3
           [([[127; 127; 127]; [100; 27; 5]], [0; 1])] [2; 1; 1] 1 2).
  vm_compute. reflexivity.
Defined.

(** X12. Verification without samples: on a test loader without batches
    the accuracy divides by zero, and a batch without samples raises
    RuntimeError; no counters are returned. *)
Theorem verify_int8_inference_empty (w1 w2 w3 : list (list Z))
  (test_loader : list (list (list Z) * list Z)) (shifts : list Z) :
  concat (fst <$> test_loader) = [] ->
  verify_int8_inference w1 w2 w3 test_loader shifts
  = Raise (match test_loader with
           | [] => ZeroDivisionError
           | _ => RuntimeError
           end).
Proof.
  intros Hempty. destruct test_loader as [| [acts target] loader]; [reflexivity |].
  simpl in Hempty. apply app_eq_nil in Hempty. destruct Hempty as [-> _].
  reflexivity.
Qed.

Lemma verify_int8_inference_empty_witness :
  verify_int8_inference small_w1 small_w2 small_w3 [] [2; 1; 1]
  = Raise ZeroDivisionError.
Proof.
  apply (verify_int8_inference_empty small_w1 small_w2 small_w3 [] [2; 1; 1]).
  reflexivity.
Defined.

(** ** The value of a packed word *)

Lemma field_first (word : Z) : field word 0 = word mod 4.
Proof. unfold field. simpl. rewrite Z.shiftr_0_r. apply land_3_mod. Qed.

Lemma field_next (word : Z) (p : nat) : field word (S p) = field (word / 4) p.
Proof.
  unfold field. replace (Z.of_nat (S p * 2)) with (2 + Z.of_nat (p * 2)) by lia.
  rewrite <- Z.shiftr_shiftr by lia.
  rewrite (Z.shiftr_div_pow2 word 2) by lia. reflexivity.
Qed.

(** A word below [4^n] is the base-4 number of its first [n] fields. *)
Lemma codes_word_fields (n : nat) (word : Z) :
  0 <= word < 4 ^ Z.of_nat n -> codes_word (field word <$> seq 0 n) = word.
Proof.
  revert word. induction n as [| n IH]; intros word Hword.
  - simpl in *. lia.
  - cbn [seq]. rewrite fmap_cons, <- fmap_S_seq, <- list_fmap_compose.
    cbn [codes_word foldr].
    rewrite (list_fmap_ext (field word ∘ S) (field (word / 4)) (seq 0 n))
      by (intros i p _; apply field_next).
    fold (codes_word (field (word / 4) <$> seq 0 n)).
    rewrite IH, field_first.
    + pose proof (Z.div_mod word 4 ltac:(lia)). lia.
    + rewrite Nat2Z.inj_succ, Z.pow_succ_r in Hword by lia.
      split; [apply Z.div_pos; lia | apply Z.div_lt_upper_bound; lia].
Qed.

Lemma word_list_lookup (w : list (list Z)) (m k : nat) (words : list Z)
  (row tile j : nat) :
  has_shape w m k -> word_list w k m = Ok words ->
  (row < m)%nat -> (tile < tiles_per_row k)%nat -> (j < 8)%nat ->
  words !! ((row * tiles_per_row k + tile) * 8 + j)%nat
  = Some (codes_word
            ((fun p => encode (entry w k row (tile * 128 + (16 * j + p))))
               <$> seq 0 16)).
Proof.
  intros Hshape Hwords Hrow Htile Hj.
  destruct (word_list_blocks w m k Hshape) as (blocks & Hblocks & Hhold).
  rewrite Hblocks in Hwords. injection Hwords as <-.
  destruct (blocks_lookup w k m blocks row tile j Hhold Hrow Htile Hj)
    as (tiles & packed & word & _ & _ & Hword & [_ Hfields] & ->).
  destruct (Hfields j Hj) as (word' & Hword' & Hbound & Hfield).
  assert (word' = word) as -> by congruence.
  f_equal. rewrite <- (codes_word_fields 16 word) at 1
    by (change (4 ^ Z.of_nat 16) with 4294967296; exact Hbound).
  f_equal. apply list_fmap_ext. intros i p Hp.
  apply lookup_seq in Hp. destruct Hp as [-> Hp]. simpl (0 + i)%nat.
  rewrite (Hfield i Hp).
  destruct (Nat.ltb_spec (16 * j + i) 128); [reflexivity | lia].
Qed.

(** Sixteen codes make a word of 32 bits. *)
Lemma codes_word_bound (codes : list Z) :
  Forall (fun c => 0 <= c <= 2) codes ->
  0 <= codes_word codes < 4 ^ Z.of_nat (length codes).
Proof.
  induction 1 as [| c codes Hc _ IH]; [simpl; lia |].
  cbn [codes_word foldr length]. fold (codes_word codes).
  rewrite Nat2Z.inj_succ, Z.pow_succ_r by lia. lia.
Qed.

(** X13. The layout of the packed words: word [j] of tile [tile] of row
    [row], at index [(row * tiles_per_row + tile) * 8 + j] of the word list,
    is the base-4 number whose digit [p] is the code of column
    [tile * 128 + 16 * j + p], columns beyond [k] counting as 0; it fits 32
    bits. *)
Theorem packed_word_value (w : list (list Z)) (m k : nat) (words : list Z)
  (row tile j : nat) :
  has_shape w m k -> word_list w k m = Ok words ->
  (row < m)%nat -> (tile < tiles_per_row k)%nat -> (j < 8)%nat ->
  words !! ((row * tiles_per_row k + tile) * 8 + j)%nat
  = Some (codes_word
            ((fun p => encode (entry w k row (tile * 128 + (16 * j + p))))
               <$> seq 0 16))
  /\ 0 <= codes_word
            ((fun p => encode (entry w k row (tile * 128 + (16 * j + p))))
               <$> seq 0 16) < 2 ^ 32.
Proof.
  intros Hshape Hwords Hrow Htile Hj.
  split; [apply (word_list_lookup w m k); assumption |].
  pose proof (codes_word_bound
                ((fun p => encode (entry w k row (tile * 128 + (16 * j + p))))
                   <$> seq 0 16)) as Hbound.
  rewrite length_fmap, length_seq in Hbound.
  change (4 ^ Z.of_nat 16) with (2 ^ 32) in Hbound. apply Hbound.
  rewrite List.Forall_map. apply List.Forall_forall. intros p _.
  destruct (encode_range (entry w k row (tile * 128 + (16 * j + p))))
    as [-> | [-> | ->]]; lia.
Qed.

Lemma packed_word_value_witness :
  [86; 0; 0; 0; 0; 0; 0; 0] !! ((0 * tiles_per_row 4 + 0) * 8 + 0)%nat
  = Some (codes_word
            ((fun p => encode (entry [[-1; 1; 1; 1]] 4 0 (0 * 128 + (16 * 0 + p))))
               <$> seq 0 16))
  /\ 0 <= codes_word
            ((fun p => encode (entry [[-1; 1; 1; 1]] 4 0 (0 * 128 + (16 * 0 + p))))
               <$> seq 0 16) < 2 ^ 32.
Proof.
  apply (packed_word_value [[-1; 1; 1; 1]] 1 4 [86; 0; 0; 0; 0; 0; 0; 0] 0 0 0).
  - split; [reflexivity |].
    apply List.Forall_cons; [reflexivity | apply List.Forall_nil].
  - vm_compute. reflexivity.
  - lia.
  - vm_compute. lia.
  - lia.
Defined.

(** ** What the packed words determine *)

Lemma word_index_split (k m i : nat) :
  (i < total_words k m)%nat ->
  exists row tile j,
    (row < m)%nat /\ (tile < tiles_per_row k)%nat /\ (j < 8)%nat
    /\ i = ((row * tiles_per_row k + tile) * 8 + j)%nat.
Proof.
  unfold total_words. intros Hi.
  assert (HT : (0 < tiles_per_row k)%nat) by nia.
  exists (i / 8 / tiles_per_row k)%nat, ((i / 8) mod tiles_per_row k)%nat,
    (i mod 8)%nat.
  pose proof (Nat.div_mod_eq i 8).
  pose proof (Nat.mod_upper_bound i 8 ltac:(lia)).
  pose proof (Nat.div_mod_eq (i / 8) (tiles_per_row k)).
  pose proof (Nat.mod_upper_bound (i / 8) (tiles_per_row k) ltac:(lia)).
  split; [| split; [| split]]; [| assumption | assumption | lia].
  apply Nat.Div0.div_lt_upper_bound, Nat.Div0.div_lt_upper_bound. lia.
Qed.

Lemma entry_padding (w : list (list Z)) (k row col : nat) :
  (k <= col)%nat -> entry w k row col = 0.
Proof. intros H. unfold entry. destruct (Nat.ltb_spec col k); [lia | reflexivity]. Qed.

(** X14. The packed words depend on the matrix only through the codes of
    its entries: two matrices of one shape that agree on where their +1 and
    their -1 are give the same word list, whatever their other values. *)
Theorem word_list_codes_only (w w' : list (list Z)) (m k : nat) :
  has_shape w m k -> has_shape w' m k ->
  (forall row col, (row < m)%nat -> (col < k)%nat ->
                   encode (entry w k row col) = encode (entry w' k row col)) ->
  word_list w k m = word_list w' k m.
Proof.
  intros Hshape Hshape' Hcodes.
  destruct (word_list_blocks w m k Hshape) as (blocks & Hwords & _).
  destruct (word_list_blocks w' m k Hshape') as (blocks' & Hwords' & _).
  rewrite Hwords, Hwords'. f_equal. apply list_eq. intros i.
  pose proof (length_word_list w m k _ Hshape Hwords) as Hlen.
  pose proof (length_word_list w' m k _ Hshape' Hwords') as Hlen'.
  destruct (le_lt_dec (total_words k m) i) as [Hge | Hlt].
  - rewrite !lookup_ge_None_2 by lia. reflexivity.
  - destruct (word_index_split k m i Hlt) as (row & tile & j & Hrow & Htile & Hj & ->).
    rewrite (word_list_lookup w m k _ row tile j Hshape Hwords Hrow Htile Hj).
    rewrite (word_list_lookup w' m k _ row tile j Hshape' Hwords' Hrow Htile Hj).
    do 2 f_equal. apply list_fmap_ext. intros n p _.
    destruct (le_lt_dec k (tile * 128 + (16 * j + p))) as [Hpad | Hcol].
    + rewrite !entry_padding by assumption. reflexivity.
    + apply Hcodes; assumption.
Qed.

Lemma word_list_codes_only_witness :
  word_list [[1; 2; -1; 0]] 4 1 = word_list [[1; 0; -1; -128]] 4 1.
Proof.
  apply (word_list_codes_only [[1; 2; -1; 0]] [[1; 0; -1; -128]] 1 4).
  - split; [reflexivity |].
    apply List.Forall_cons; [reflexivity | apply List.Forall_nil].
  - split; [reflexivity |].
    apply List.Forall_cons; [reflexivity | apply List.Forall_nil].
  - intros row col Hrow Hcol.
    destruct row as [| row]; [| lia].
    do 4 (destruct col as [| col]; [reflexivity |]). lia.
Defined.

Lemma encode_injective (v v' : Z) :
  is_ternary v -> is_ternary v' -> encode v = encode v' -> v = v'.
Proof.
  intros [-> | [-> | ->]] [-> | [-> | ->]]; simpl; intros H;
    try reflexivity; discriminate.
Qed.

(** X15. The packer is injective on ternary matrices: two [m] x [k] matrices
    with elements in {-1, 0, +1} that are packed into the same words are
    equal. *)
Theorem word_list_injective (w w' : list (list Z)) (m k : nat) :
  has_shape w m k -> has_shape w' m k ->
  Forall (Forall is_ternary) w -> Forall (Forall is_ternary) w' ->
  word_list w k m = word_list w' k m -> w = w'.
Proof.
  intros Hshape Hshape' Ht Ht' Heq.
  destruct (word_list_blocks w m k Hshape) as (blocks & Hwords & _).
  rewrite Hwords in Heq. symmetry in Heq.
  assert (Htiles : (k <= tiles_per_row k * 128)%nat).
  { unfold tiles_per_row. pose proof (Nat.div_mod_eq (k + 127) 128).
    pose proof (Nat.mod_upper_bound (k + 127) 128 ltac:(lia)). lia. }
  destruct Hshape as [Hm Hk], Hshape' as [Hm' Hk'].
  rewrite Forall_lookup in Hk, Hk', Ht, Ht'.
  apply list_eq. intros i.
  destruct (w !! i) as [r |] eqn:Er, (w' !! i) as [r' |] eqn:Er'.
  - f_equal. pose proof (Hk i r Er) as Hlen. pose proof (Hk' i r' Er') as Hlen'.
    pose proof (Ht i r Er) as Htr. pose proof (Ht' i r' Er') as Htr'.
    rewrite Forall_lookup in Htr, Htr'.
    apply list_eq. intros c.
    destruct (r !! c) as [v |] eqn:Ev, (r' !! c) as [v' |] eqn:Ev'.
    + f_equal. apply lookup_lt_Some in Er as Hi, Ev as Hc.
      pose proof (packed_field_entry w m k _ i c (conj Hm (proj2 (Forall_lookup _ _) Hk))
                    Hwords ltac:(lia) ltac:(lia)) as P.
      pose proof (packed_field_entry w' m k _ i c (conj Hm' (proj2 (Forall_lookup _ _) Hk'))
                    Heq ltac:(lia) ltac:(lia)) as P'.
      rewrite P in P'. injection P' as P'.
      rewrite (entry_lookup w k i c r v), (entry_lookup w' k i c r' v') in P'
        by (assumption || lia).
      apply encode_injective; eauto.
    + apply lookup_lt_Some in Ev. apply lookup_ge_None in Ev'. lia.
    + apply lookup_lt_Some in Ev'. apply lookup_ge_None in Ev. lia.
    + reflexivity.
  - apply lookup_lt_Some in Er. apply lookup_ge_None in Er'. lia.
  - apply lookup_lt_Some in Er'. apply lookup_ge_None in Er. lia.
  - reflexivity.
Qed.

Lemma word_list_injective_witness : [[1; -1; 0; 1]] = [[1; -1; 0; 1]].
Proof.
  apply (word_list_injective [[1; -1; 0; 1]] [[1; -1; 0; 1]] 1 4).
  - split; [reflexivity |].
    apply List.Forall_cons; [reflexivity | apply List.Forall_nil].
  - split; [reflexivity |].
    apply List.Forall_cons; [reflexivity | apply List.Forall_nil].
  - apply List.Forall_cons; [Forall_literal | apply List.Forall_nil].
  - apply List.Forall_cons; [Forall_literal | apply List.Forall_nil].
  - reflexivity.
Defined.

Lemma codes_word_zero (n : nat) : codes_word ((fun _ => 0) <$> seq 0 n) = 0.
Proof.
  generalize 0%nat. induction n as [| n IH]; intros start; [reflexivity |].
  cbn [seq fmap list_fmap codes_word foldr].
  change (foldr (fun c word => c + 4 * word) 0 ((fun _ => 0) <$> seq (S start) n))
    with (codes_word ((fun _ : nat => 0) <$> seq (S start) n)).
  rewrite IH. reflexivity.
Qed.

(** X16. The packed block of a matrix is all zero exactly when the matrix
    has no entry +1 or -1 (an all-zero matrix in particular). *)
Theorem word_list_zero_iff (w : list (list Z)) (m k : nat) (words : list Z) :
  has_shape w m k -> word_list w k m = Ok words ->
  (words = replicate (total_words k m) 0
   <-> forall row col, (row < m)%nat -> (col < k)%nat ->
                       entry w k row col <> 1 /\ entry w k row col <> -1).
Proof.
  intros Hshape Hwords.
  assert (Hcode : forall v, encode v = 0 <-> v <> 1 /\ v <> -1).
  { intros v. unfold encode.
    destruct (Z.eqb_spec v 1); [lia |]. destruct (Z.eqb_spec v (-1)); lia. }
  assert (Htiles : (k <= tiles_per_row k * 128)%nat).
  { unfold tiles_per_row. pose proof (Nat.div_mod_eq (k + 127) 128).
    pose proof (Nat.mod_upper_bound (k + 127) 128 ltac:(lia)). lia. }
  split.
  - intros -> row col Hrow Hcol. apply Hcode.
    pose proof (packed_field_entry w m k _ row col Hshape Hwords Hrow ltac:(lia)) as P.
    unfold packed_field in P. cbv zeta in P.
    destruct (replicate (total_words k m) 0 !! _) as [word |] eqn:E;
      [| discriminate].
    apply lookup_replicate in E. destruct E as [-> _].
    cbv beta iota delta [mbind option_bind] in P. rewrite field_0 in P.
    congruence.
  - intros Hentries. apply list_eq. intros i.
    pose proof (length_word_list w m k _ Hshape Hwords) as Hlen.
    destruct (le_lt_dec (total_words k m) i) as [Hge | Hlt].
    + rewrite !lookup_ge_None_2 by (rewrite ?length_replicate; lia). reflexivity.
    + rewrite lookup_replicate_2 by exact Hlt.
      destruct (word_index_split k m i Hlt) as (row & tile & j & Hrow & Htile & Hj & ->).
      rewrite (word_list_lookup w m k _ row tile j Hshape Hwords Hrow Htile Hj).
      f_equal. rewrite <- (codes_word_zero 16). f_equal.
      apply list_fmap_ext. intros n p _.
      destruct (le_lt_dec k (tile * 128 + (16 * j + p))) as [Hpad | Hcol].
      * rewrite entry_padding by assumption. reflexivity.
      * apply Hcode, Hentries; assumption.
Qed.

Lemma word_list_zero_iff_witness :
  [0; 0; 0; 0; 0; 0; 0; 0; 0; 0; 0; 0; 0; 0; 0; 0]
  = replicate (total_words 4 2) 0
  <-> forall row col, (row < 2)%nat -> (col < 4)%nat ->
        entry [[0; 0; 0; 0]; [0; 0; 0; 0]] 4 row col <> 1
        /\ entry [[0; 0; 0; 0]; [0; 0; 0; 0]] 4 row col <> -1.
Proof.
  apply (word_list_zero_iff [[0; 0; 0; 0]; [0; 0; 0; 0]] 2 4).
  - split; [reflexivity |].
    repeat (apply List.Forall_cons; [reflexivity |]). apply List.Forall_nil.
  - vm_compute. reflexivity.
Defined.

(** ** The emitted lines *)

Lemma chunks_concat (n : nat) (l : list Z) :
  (length l <= n * 8)%nat ->
  concat ((fun q => take 8 (drop (q * 8) l)) <$> seq 0 n) = l.
Proof.
  revert l. induction n as [| n IH]; intros l Hlen.
  - destruct l; [reflexivity | simpl in Hlen; lia].
  - cbn [seq]. rewrite fmap_cons, <- fmap_S_seq, <- list_fmap_compose.
    cbn [concat]. simpl (0 * 8)%nat. rewrite drop_0.
    rewrite (list_fmap_ext _ (fun q => take 8 (drop (q * 8) (drop 8 l))) (seq 0 n)).
    + rewrite IH by (rewrite length_drop; lia). apply take_drop.
    + intros i q _. simpl. rewrite drop_drop. do 2 f_equal; lia.
Qed.

(** X17. The lines written for the packed array are the tiles: the word list
    of an [m] x [k] matrix is cut into [m * tiles_per_row] lines of exactly 8
    words, in order and without loss, every line but the last ends with a
    comma, and the byte size written for the layer is 32 per line, that is 4
    per word. *)
Theorem packed_lines_are_tiles (w : list (list Z)) (m k : nat)
  (words : list Z) :
  has_shape w m k -> word_list w k m = Ok words ->
  length (packed_lines words) = (m * tiles_per_row k)%nat
  /\ concat (fst <$> packed_lines words) = words
  /\ Forall (fun line => length line.1 = 8%nat) (packed_lines words)
  /\ (forall n line, packed_lines words !! n = Some line ->
                     line.2 = (n + 1 <? length (packed_lines words))%nat)
  /\ ddr3_bytes k m = (32 * length (packed_lines words))%nat
  /\ ddr3_bytes k m = (4 * length words)%nat.
Proof.
  intros Hshape Hwords.
  pose proof (length_word_list w m k _ Hshape Hwords) as Hlen.
  unfold total_words in Hlen.
  assert (Hn : ((length words + 7) / 8 = m * tiles_per_row k)%nat).
  { rewrite Hlen. symmetry. apply Nat.div_unique with 7%nat; lia. }
  assert (Hlines : length (packed_lines words) = (m * tiles_per_row k)%nat).
  { unfold packed_lines. rewrite length_fmap, length_seq. exact Hn. }
  split; [exact Hlines |]. split; [| split; [| split; [| split]]].
  - unfold packed_lines. rewrite <- list_fmap_compose.
    rewrite (list_fmap_ext _ (fun q => take 8 (drop (q * 8) words)) _)
      by reflexivity.
    apply chunks_concat. lia.
  - apply Forall_lookup_2. intros n line Hline. unfold packed_lines in Hline.
    rewrite list_lookup_fmap in Hline.
    destruct (seq 0 _ !! n) as [q |] eqn:Eq; [| discriminate].
    apply lookup_seq in Eq. destruct Eq as [-> Hq]. injection Hline as <-.
    simpl. rewrite length_take, length_drop. lia.
  - intros n line Hline. rewrite Hlines. unfold packed_lines in Hline.
    rewrite list_lookup_fmap in Hline.
    destruct (seq 0 _ !! n) as [q |] eqn:Eq; [| discriminate].
    apply lookup_seq in Eq. destruct Eq as [-> Hq]. injection Hline as <-.
    simpl.
    destruct (Nat.ltb_spec (n * 8 + 8) (length words)),
      (Nat.ltb_spec (n + 1) (m * tiles_per_row k)); try reflexivity; lia.
  - rewrite Hlines. unfold ddr3_bytes. lia.
  - unfold ddr3_bytes. lia.
Qed.

Lemma packed_lines_are_tiles_witness :
  length (packed_lines [86; 0; 0; 0; 0; 0; 0; 0]) = (1 * tiles_per_row 4)%nat
  /\ concat (fst <$> packed_lines [86; 0; 0; 0; 0; 0; 0; 0])
     = [86; 0; 0; 0; 0; 0; 0; 0]
  /\ Forall (fun line => length line.1 = 8%nat)
            (packed_lines [86; 0; 0; 0; 0; 0; 0; 0])
  /\ (forall n line, packed_lines [86; 0; 0; 0; 0; 0; 0; 0] !! n = Some line ->
                     line.2
                     = Nat.ltb (n + 1)
                         (length (packed_lines [86; 0; 0; 0; 0; 0; 0; 0])))
  /\ ddr3_bytes 4 1
     = Nat.mul 32 (length (packed_lines [86; 0; 0; 0; 0; 0; 0; 0]))
  /\ ddr3_bytes 4 1 = Nat.mul 4 (length [86; 0; 0; 0; 0; 0; 0; 0]).
Proof.
  apply (packed_lines_are_tiles [[-1; 1; 1; 1]] 1 4 [86; 0; 0; 0; 0; 0; 0; 0]).
  - split; [reflexivity |].
    apply List.Forall_cons; [reflexivity | apply List.Forall_nil].
  - vm_compute. reflexivity.
Defined.

(** ** The exported test data *)

Lemma chunks_concat_take (c n : nat) (l : list Z) :
  concat ((fun r => take c (drop (r * c) l)) <$> seq 0 n) = take (n * c) l.
Proof.
  revert l. induction n as [| n IH]; intros l; [reflexivity |].
  cbn [seq]. rewrite fmap_cons, <- fmap_S_seq, <- list_fmap_compose.
  cbn [concat]. simpl (0 * c)%nat. rewrite drop_0.
  rewrite (list_fmap_ext _ (fun r => take c (drop (r * c) (drop c l))) (seq 0 n)).
  - rewrite IH, take_take_drop. reflexivity.
  - intros i r _. simpl. rewrite drop_drop. do 2 f_equal; lia.
Qed.

(** X18. The 28 slices written for an image are its first 784 values in
    order: a 784-pixel image is written whole, in 28 rows of 28 values; a
    longer one loses its tail. *)
Theorem image_rows_cover (img : list Z) :
  concat (image_rows img) = take 784 img
  /\ (length img = 784%nat ->
      concat (image_rows img) = img
      /\ Forall (fun row => length row = 28%nat) (image_rows img)).
Proof.
  assert (E : concat (image_rows img) = take 784 img)
    by apply (chunks_concat_take 28 28).
  split; [exact E |]. intros Hlen. split.
  - rewrite E. apply take_ge. lia.
  - unfold image_rows. apply Forall_fmap, Forall_lookup_2.
    intros i r Hr. apply lookup_seq in Hr. destruct Hr as [-> Hr].
    simpl. rewrite length_take, length_drop. lia.
Qed.

(** The loop over the images of one batch, from image [j] on, appends the
    images and labels that are still wanted. *)
Lemma collect_batch (acts : list (list Z)) (target : list Z) (num_images : Z)
  (cnt j : nat) (st : list (list Z) * list Z) :
  (j + cnt = length acts)%nat -> length target = length acts ->
  for_each_break (seq j cnt)
    (fun i st =>
       if Z.of_nat (length st.1) >=? num_images then Ok (Break st)
       else
         img_int8 ← index acts i;
         label ← index target i;
         mret (Next (st.1 ++ [img_int8], st.2 ++ [label])))
    st
  = Ok (st.1 ++ take (Z.to_nat num_images - length st.1) (drop j acts),
        st.2 ++ take (Z.to_nat num_images - length st.1) (drop j target)).
Proof.
  revert j st. induction cnt as [| cnt IH]; intros j [images labels] Hj Hlen.
  - simpl. rewrite !drop_ge, !take_nil, !app_nil_r by lia. reflexivity.
  - cbn [seq for_each_break fst snd].
    destruct (Z.geb_spec (Z.of_nat (length images)) num_images) as [Hdone | Hmore].
    + simpl. replace (Z.to_nat num_images - length images)%nat with 0%nat by lia.
      rewrite !take_0, !app_nil_r. reflexivity.
    + destruct (lookup_lt_is_Some_2 acts j ltac:(lia)) as [img Himg].
      destruct (lookup_lt_is_Some_2 target j ltac:(lia)) as [label Hlabel].
      unfold index. rewrite Himg, Hlabel. simpl.
      rewrite IH by (assumption || lia). cbn [fst snd].
      rewrite length_app. simpl length.
      rewrite (drop_S acts img j Himg), (drop_S target label j Hlabel).
      replace (Z.to_nat num_images - length images)%nat
        with (S (Z.to_nat num_images - (length images + 1)))%nat by lia.
      cbn [take]. rewrite <- !app_assoc. reflexivity.
Qed.

Lemma collect_loader (test_loader : list (list (list Z) * list Z))
  (num_images : Z) (st : list (list Z) * list Z) :
  Forall (fun batch => length batch.2 = length batch.1) test_loader ->
  for_each_break test_loader
    (fun batch st =>
       st ← for_each_break (seq 0 (length batch.1))
         (fun i st =>
            if Z.of_nat (length st.1) >=? num_images then Ok (Break st)
            else
              img_int8 ← index batch.1 i;
              label ← index batch.2 i;
              mret (Next (st.1 ++ [img_int8], st.2 ++ [label])))
         st;
       if Z.of_nat (length st.1) >=? num_images then Ok (Break st)
       else Ok (Next st))
    st
  = Ok (st.1 ++ take (Z.to_nat num_images - length st.1)
                     (concat (fst <$> test_loader)),
        st.2 ++ take (Z.to_nat num_images - length st.1)
                     (concat (snd <$> test_loader))).
Proof.
  intros Hloader. revert st.
  induction Hloader as [| [acts target] loader Hbatch _ IH]; intros [images labels].
  - simpl. rewrite !take_nil, !app_nil_r. reflexivity.
  - cbn [for_each_break fst snd] in *.
    rewrite (collect_batch acts target num_images (length acts) 0 (images, labels))
      by (assumption || lia).
    rewrite !drop_0. cbn [fst snd mbind res_bind].
    rewrite !fmap_cons. cbn [concat fst snd].
    rewrite length_app, length_take.
    destruct (Z.geb_spec
                (Z.of_nat (length images
                           + (Z.to_nat num_images - length images) `min` length acts))
                num_images) as [Hdone | Hmore].
    + cbn [mbind res_bind].
      rewrite !take_app_le by lia. reflexivity.
    + cbn [mbind res_bind]. rewrite IH. cbn [fst snd].
      rewrite length_app, length_take.
      replace ((Z.to_nat num_images - length images) `min` length acts)%nat
        with (length acts) by lia.
      rewrite !(take_ge acts), !(take_ge target) by lia.
      rewrite !take_app_ge by lia. rewrite <- !app_assoc.
      replace (Z.to_nat num_images - (length images + length acts))%nat
        with (Z.to_nat num_images - length images - length acts)%nat by lia.
      rewrite Hbatch. reflexivity.
Qed.

(** X19. The exported test set is the head of the loader: when every batch
    has a label for each image, the loops with their two [break]s collect
    the first [num_images] images and their labels, in order (all of them
    when the loader holds fewer, none when [num_images <= 0]). *)
Theorem collect_test_images_take (test_loader : list (list (list Z) * list Z))
  (num_images : Z) :
  Forall (fun batch => length batch.2 = length batch.1) test_loader ->
  collect_test_images test_loader num_images
  = Ok (take (Z.to_nat num_images) (concat (fst <$> test_loader)),
        take (Z.to_nat num_images) (concat (snd <$> test_loader))).
Proof.
  intros Hloader. unfold collect_test_images.
  rewrite (collect_loader test_loader num_images ([], []) Hloader).
  cbn [fst snd length app]. rewrite Nat.sub_0_r. reflexivity.
Qed.

Lemma collect_test_images_take_witness :
  collect_test_images [([[1; 2]; [3; 4]], [7; 8]); ([[5; 6]], [9])] 2
  = Ok (take (Z.to_nat 2) (concat (fst <$> [([[1; 2]; [3; 4]], [7; 8]); ([[5; 6]], [9])])),
        take (Z.to_nat 2) (concat (snd <$> [([[1; 2]; [3; 4]], [7; 8]); ([[5; 6]], [9])]))).
Proof.
  apply (collect_test_images_take [([[1; 2]; [3; 4]], [7; 8]); ([[5; 6]], [9])] 2).
  repeat (apply List.Forall_cons; [reflexivity |]). apply List.Forall_nil.
Defined.

(** ** What the packer reads *)

Lemma for_each_ext {A S : Type} (l : list A) (body body' : A -> S -> res S)
  (s : S) :
  (forall x s, In x l -> body x s = body' x s) ->
  for_each l body s = for_each l body' s.
Proof.
  revert s. induction l as [| x l IH]; intros s Hbody; [reflexivity |].
  simpl. rewrite (Hbody x s) by (left; reflexivity).
  destruct (body' x s) as [s' |]; [simpl | reflexivity].
  apply IH. intros y s0 Hy. apply Hbody. right. exact Hy.
Qed.

Lemma index2_take (w : list (list Z)) (k m row col : nat) :
  (row < m)%nat -> (col < k)%nat ->
  index2 (take k <$> take m w) row col = index2 w row col.
Proof.
  intros Hrow Hcol. unfold index2, index.
  rewrite list_lookup_fmap, lookup_take_lt by exact Hrow.
  destruct (w !! row) as [r |]; [simpl | reflexivity].
  rewrite lookup_take_lt by exact Hcol. reflexivity.
Qed.

(** X20. The packer reads the first [m] rows and the first [k] columns
    only: rows and columns of the array beyond the declared shape change
    neither the words nor the exceptions. *)
Theorem word_list_reads_declared_shape (w : list (list Z)) (k m : nat) :
  word_list (take k <$> take m w) k m = word_list w k m.
Proof.
  unfold word_list, for_range. apply for_each_ext.
  intros row words Hrow. apply in_seq in Hrow.
  apply for_each_ext. intros tile words' _.
  assert (E : pack_tile (take k <$> take m w) k row tile = pack_tile w k row tile);
    [| rewrite E; reflexivity].
  unfold pack_tile, for_range. apply for_each_ext.
  intros i packed _. cbv zeta.
  destruct (Nat.ltb_spec (tile * 128 + i) k) as [Hcol | Hpad]; [| reflexivity].
  rewrite index2_take by lia. reflexivity.
Qed.

(** A loop raises the exception of its first failing iteration. *)
Lemma for_range_raise {S : Type} (body : nat -> S -> res S) (n j : nat)
  (e : exn) (s : S) :
  (j < n)%nat ->
  (forall i s, (i < j)%nat -> exists s', body i s = Ok s') ->
  (forall s, body j s = Raise e) ->
  for_range n body s = Raise e.
Proof.
  intros Hj Hbefore Hfail. unfold for_range.
  assert (Hgen : forall len start s0,
             (start <= j < start + len)%nat ->
             for_each (seq start len) body s0 = Raise e).
  { induction len as [| len IH]; intros start s0 Hrange; [lia |].
    simpl. destruct (decide (start = j)) as [-> | Hne].
    - rewrite Hfail. reflexivity.
    - destruct (Hbefore start s0 ltac:(lia)) as [s1 ->]. simpl.
      apply IH. lia. }
  apply Hgen. lia.
Qed.

Lemma for_range_succeeds {S : Type} (body : nat -> S -> res S) (n : nat) (s : S) :
  (forall i s, (i < n)%nat -> exists s', body i s = Ok s') ->
  exists s', for_range n body s = Ok s'.
Proof.
  intros Hbody.
  destruct (for_range_invariant (fun _ _ => True) body n s I) as (s' & Hs' & _).
  - intros i s0 Hi _. destruct (Hbody i s0 Hi) as [s1 Hs1]. eauto.
  - eauto.
Qed.

(** X21. A declared width [k] beyond the width of the array is not padded:
    the packer raises IndexError at the first missing column. *)
Theorem word_list_too_narrow (w : list (list Z)) (m m' k k' : nat) :
  has_shape w m' k' -> (k' < k)%nat -> (0 < m)%nat ->
  word_list w k m = Raise IndexError.
Proof.
  intros [Hm Hk] Hwide Hm0.
  pose proof (Nat.div_mod_eq k' 128) as Hdm.
  pose proof (Nat.mod_upper_bound k' 128 ltac:(lia)) as Hmod.
  assert (Hcell : forall col, (col < k')%nat -> (0 < m')%nat ->
                              exists v, index2 w 0 col = Ok v).
  { intros col Hcol Hrow. exists (entry w k' 0 col).
    apply (index2_entry w m' k'); [split; assumption | lia | exact Hcol]. }
  assert (Hmiss : index2 w 0 k' = Raise IndexError).
  { unfold index2, index. destruct (w !! 0%nat) as [r |] eqn:Er; [| reflexivity].
    simpl. rewrite Forall_lookup in Hk. specialize (Hk _ _ Er).
    rewrite lookup_ge_None_2 by lia. reflexivity. }
  assert (Hrows : (0 < m')%nat \/ w = [])
    by (destruct w; [right; reflexivity | simpl in Hm; left; lia]).
  unfold word_list. apply (for_range_raise _ m 0); [lia | intros i s Hi; lia |].
  intros words. destruct Hrows as [Hrow | ->].
  - apply (for_range_raise _ (tiles_per_row k) (k' / 128)).
    + unfold tiles_per_row. apply Nat.Div0.div_lt_upper_bound.
      pose proof (Nat.div_mod_eq (k + 127) 128).
      pose proof (Nat.mod_upper_bound (k + 127) 128 ltac:(lia)). lia.
    + intros tile words' Htile.
      assert (Hpacked : exists packed, pack_tile w k 0 tile = Ok packed).
      { unfold pack_tile. apply for_range_succeeds. intros i packed Hi. cbv zeta.
        destruct (Nat.ltb_spec (tile * 128 + i) k) as [Hcol | Hpad];
          [| simpl; eauto].
        destruct (Hcell (tile * 128 + i)%nat) as [v ->]; [lia | exact Hrow |].
        simpl. eauto. }
      destruct Hpacked as [packed ->]. simpl. eauto.
    + intros words'.
      assert (E : pack_tile w k 0 (k' / 128) = Raise IndexError);
        [| rewrite E; reflexivity].
      unfold pack_tile. apply (for_range_raise _ 128 (k' mod 128)); [exact Hmod | |].
      * intros i packed Hi. cbv zeta.
        destruct (Nat.ltb_spec (k' / 128 * 128 + i) k) as [Hcol | Hpad];
          [| simpl; eauto].
        destruct (Hcell (k' / 128 * 128 + i)%nat) as [v ->]; [lia | exact Hrow |].
        simpl. eauto.
      * intros packed. cbv zeta.
        replace (k' / 128 * 128 + k' mod 128)%nat with k' by lia.
        destruct (Nat.ltb_spec k' k); [| lia]. rewrite Hmiss. reflexivity.
  - apply (for_range_raise _ (tiles_per_row k) 0).
    + unfold tiles_per_row.
      pose proof (Nat.div_mod_eq (k + 127) 128).
      pose proof (Nat.mod_upper_bound (k + 127) 128 ltac:(lia)). lia.
    + intros i s Hi. lia.
    + intros words'.
      assert (E : pack_tile [] k 0 0 = Raise IndexError);
        [| rewrite E; reflexivity].
      unfold pack_tile. apply (for_range_raise _ 128 0); [lia | intros i s Hi; lia |].
      intros packed. cbv zeta. simpl (0 * 128 + 0)%nat.
      destruct (Nat.ltb_spec 0 k); [reflexivity | lia].
Qed.

Lemma word_list_too_narrow_witness :
  word_list [[1; -1; 0; 1]] 5 1 = Raise IndexError.
Proof.
  apply (word_list_too_narrow [[1; -1; 0; 1]] 1 1 5 4).
  - split; [reflexivity |].
    apply List.Forall_cons; [reflexivity | apply List.Forall_nil].
  - lia.
  - lia.
Defined.

(** ** Ternary quantization *)

(** *** Rounding to 24 bits *)




Lemma Zdigits2_nonneg m : 0 <= Zdigits2 m.
Proof. destruct m; simpl; lia. Qed.

Lemma Zdigits2_0 m : 0 <= m -> Zdigits2 m = 0 -> m = 0.
Proof. destruct m; simpl; lia. Qed.





























(** *** The quantizer *)













(** The same happens at the other end of the range: when the sum of the
    absolute values overflows, [alpha] is plus infinity and every finite
    weight quantizes to zero. *)
Lemma forward_sum_overflow :
  Forall (Forall is_float32) overflow_w
  /\ spec_quantize (map (map float32_value) overflow_w) = [[1; -1]]
  /\ torch_mean (torch_abs overflow_w) = S754_infinity false
  /\ forward overflow_w = [[S754_zero false; S754_zero true]].
Proof.
  split; [repeat constructor|].
  split; [vm_compute; reflexivity|].
  split; vm_compute; reflexivity.
Qed.

(** Infinite and NaN weights are outside the rule: they quantize to NaN. *)
Lemma forward_not_finite :
  forward [[S754_infinity false; f32_of_Z 1]] = [[S754_nan; S754_zero false]]
  /\ forward [[S754_nan; f32_of_Z 1]] = [[S754_nan; S754_nan]].
Proof. split; vm_compute; reflexivity. Qed.
